(** * pygfx: scene-graph transforms and points materials

    A shallow embedding of [pygfx/objects/_base.py] (class [WorldObject]) and
    [pygfx/materials/_points.py] (class [PointsMaterial] and its variants),
    with the properties of the specification proved about it.

    Python objects live in a store addressed by object identity (a [nat]);
    attributes holding object references hold identities, so aliasing is
    visible.  The linear-algebra types of [pygfx.linalg] are an interface
    ([Linalg]); recursion that Python bounds by its call stack is bounded
    here by a fuel argument. *)

From stdpp Require Import gmap strings list fin_maps.
From Stdlib Require Import ZArith QArith.

Local Set Warnings "-register-all,-clear-no-such-hyp".
Local Open Scope Z_scope.
Local Open Scope string_scope.

(** ** The linear-algebra collaborator ([pygfx.linalg]) *)

(** Only the operations [WorldObject] calls while wiring and updating the
    hierarchy.  [Matrix4.compose] and [Matrix4.multiply_matrices] write their
    result into the receiver; [Matrix4.copy] writes its argument there. *)
Class Linalg := {
  Vector3 : Type;
  Quaternion : Type;
  Matrix4 : Type;
  Vector3_new : Z → Z → Z → Vector3;
  Quaternion_new : Quaternion;
  Matrix4_new : Matrix4;
  compose : Vector3 → Quaternion → Vector3 → Matrix4;
  multiply_matrices : Matrix4 → Matrix4 → Matrix4
}.

(** ** World objects *)

Section WorldObject.
Context {L : Linalg}.

Record WorldObject := mkWorldObject {
  parent : option nat;
  _children : list nat;
  position : Vector3;
  rotation : Quaternion;
  scale : Vector3;
  up : Vector3;
  matrix : Matrix4;
  matrix_world : Matrix4;
  matrix_world_dirty : bool;
  visible : bool;
  render_order : Z
}.

(** The object store: identity ↦ attributes. *)
Abbreviation heap := (gmap nat WorldObject).

Definition set_parent (p : option nat) (o : WorldObject) : WorldObject :=
  mkWorldObject p (_children o) (position o) (rotation o) (scale o) (up o)
    (matrix o) (matrix_world o) (matrix_world_dirty o) (visible o) (render_order o).

Definition set_children (cs : list nat) (o : WorldObject) : WorldObject :=
  mkWorldObject (parent o) cs (position o) (rotation o) (scale o) (up o)
    (matrix o) (matrix_world o) (matrix_world_dirty o) (visible o) (render_order o).

Definition set_position (v : Vector3) (o : WorldObject) : WorldObject :=
  mkWorldObject (parent o) (_children o) v (rotation o) (scale o) (up o)
    (matrix o) (matrix_world o) (matrix_world_dirty o) (visible o) (render_order o).

Definition set_rotation (q : Quaternion) (o : WorldObject) : WorldObject :=
  mkWorldObject (parent o) (_children o) (position o) q (scale o) (up o)
    (matrix o) (matrix_world o) (matrix_world_dirty o) (visible o) (render_order o).

Definition set_scale (v : Vector3) (o : WorldObject) : WorldObject :=
  mkWorldObject (parent o) (_children o) (position o) (rotation o) v (up o)
    (matrix o) (matrix_world o) (matrix_world_dirty o) (visible o) (render_order o).

Definition set_matrix (m : Matrix4) (o : WorldObject) : WorldObject :=
  mkWorldObject (parent o) (_children o) (position o) (rotation o) (scale o) (up o)
    m (matrix_world o) (matrix_world_dirty o) (visible o) (render_order o).

Definition set_matrix_world (m : Matrix4) (o : WorldObject) : WorldObject :=
  mkWorldObject (parent o) (_children o) (position o) (rotation o) (scale o) (up o)
    (matrix o) m (matrix_world_dirty o) (visible o) (render_order o).

Definition set_matrix_world_dirty (b : bool) (o : WorldObject) : WorldObject :=
  mkWorldObject (parent o) (_children o) (position o) (rotation o) (scale o) (up o)
    (matrix o) (matrix_world o) b (visible o) (render_order o).

(** [WorldObject.__init__] *)
Definition init_object : WorldObject :=
  {| parent := None;
     _children := [];
     position := Vector3_new 0 0 0;
     rotation := Quaternion_new;
     scale := Vector3_new 1 1 1;
     up := Vector3_new 0 1 0;
     matrix := Matrix4_new;
     matrix_world := Matrix4_new;
     matrix_world_dirty := true;
     visible := true;
     render_order := 0 |}.

(** [WorldObject()]: a new object gets an identity no live object has. *)
Definition new_object (h : heap) : nat * heap :=
  let n := fresh (dom h) in (n, <[n := init_object]> h).

(** [list.remove(x)]: drops the first element equal to [x]. *)
Fixpoint list_remove (x : nat) (l : list nat) : list nat :=
  match l with
  | [] => []
  | y :: l' => if decide (x = y) then l' else y :: list_remove x l'
  end.

(** [WorldObject.remove]; [None] only when an identity is not in the store. *)
Definition remove (h : heap) (self obj : nat) : option heap :=
  s ← h !! self;
  if decide (obj ∈ _children s) then
    o ← h !! obj;
    let h1 := <[obj := set_parent None o]> h in
    s1 ← h1 !! self;
    Some (<[self := set_children (list_remove obj (_children s1)) s1]> h1)
  else Some h.

(** [WorldObject.add] (the returned [self] is left out). *)
Definition add (h : heap) (self obj : nat) : option heap :=
  o ← h !! obj;
  h1 ← match parent o with
       | Some p => remove h p obj
       | None => Some h
       end;
  o1 ← h1 !! obj;
  let h2 := <[obj := set_parent (Some self) o1]> h1 in
  s2 ← h2 !! self;
  let h3 := <[self := set_children (_children s2 ++ [obj]) s2]> h2 in
  o3 ← h3 !! obj;
  Some (<[obj := set_matrix_world_dirty true o3]> h3).

(** [WorldObject.update_matrix] *)
Definition update_matrix (h : heap) (self : nat) : option heap :=
  s ← h !! self;
  let s1 := set_matrix (compose (position s) (rotation s) (scale s)) s in
  Some (<[self := set_matrix_world_dirty true s1]> h).

(** [for child in cs: child.matrix_world_dirty = True] *)
Fixpoint flag_dirty (h : heap) (cs : list nat) : option heap :=
  match cs with
  | [] => Some h
  | c :: cs' =>
      o ← h !! c;
      flag_dirty (<[c := set_matrix_world_dirty true o]> h) cs'
  end.

(** The body of [if self.matrix_world_dirty or force:] in
    [update_matrix_world]. *)
Definition recompute_world (h : heap) (self : nat) : option heap :=
  s ← h !! self;
  mw ← match parent s with
       | None => Some (matrix s)
       | Some p => po ← h !! p; Some (multiply_matrices (matrix_world po) (matrix s))
       end;
  let h1 := <[self := set_matrix_world mw s]> h in
  s1 ← h1 !! self;
  let h2 := <[self := set_matrix_world_dirty false s1]> h1 in
  s2 ← h2 !! self;
  flag_dirty h2 (_children s2).

(** [for x in xs: h = f(h, x)], stopping at the first failure. *)
Fixpoint for_each (f : heap → nat → option heap) (h : heap) (xs : list nat)
  : option heap :=
  match xs with
  | [] => Some h
  | x :: xs' => h' ← f h x; for_each f h' xs'
  end.

(** [WorldObject.update_matrix_world].  [fuel] bounds the depth of nested
    calls; [None] is fuel exhausted or an identity missing from the store. *)
Fixpoint update_matrix_world (fuel : nat) (h : heap) (self : nat)
    (force update_children update_parents : bool) : option heap :=
  match fuel with
  | O => None
  | S fuel' =>
      s ← h !! self;
      h1 ← (if update_parents then
              match parent s with
              | Some p => update_matrix_world fuel' h p force false true
              | None => Some h
              end
            else Some h);
      h2 ← update_matrix h1 self;
      s2 ← h2 !! self;
      h3 ← (if matrix_world_dirty s2 || force
            then recompute_world h2 self
            else Some h2);
      if update_children then
        s3 ← h3 !! self;
        for_each (λ h' child, update_matrix_world fuel' h' child false true false)
                 h3 (_children s3)
      else Some h3
  end.

End WorldObject.

Abbreviation heap := (gmap nat WorldObject).

(** ** An exact instance of the linear-algebra interface

    Integer entries, so that scenes can be evaluated.  A matrix is its list of
    rows; [mcompose] is the usual translation·rotation·scale matrix of a
    position, a quaternion [(x, y, z, w)] and a scale. *)
Module ZLinalg.

Definition row_times (r : list Z) (cols : list (list Z)) : list Z :=
  map (λ c, foldr Z.add 0 (zip_with Z.mul r c)) cols.

Fixpoint transpose (n : nat) (m : list (list Z)) : list (list Z) :=
  match n with
  | O => []
  | S n' => map (λ r, hd 0 r) m :: transpose n' (map (λ r, tl r) m)
  end.

Definition mmul (a b : list (list Z)) : list (list Z) :=
  map (λ r, row_times r (transpose 4 b)) a.

Definition identity : list (list Z) :=
  [[1; 0; 0; 0]; [0; 1; 0; 0]; [0; 0; 1; 0]; [0; 0; 0; 1]].

Definition mcompose (p : Z * Z * Z) (q : Z * Z * Z * Z) (s : Z * Z * Z)
  : list (list Z) :=
  let '(px, py, pz) := p in
  let '(x, y, z, w) := q in
  let '(sx, sy, sz) := s in
  let x2 := x + x in let y2 := y + y in let z2 := z + z in
  let xx := x * x2 in let xy := x * y2 in let xz := x * z2 in
  let yy := y * y2 in let yz := y * z2 in let zz := z * z2 in
  let wx := w * x2 in let wy := w * y2 in let wz := w * z2 in
  [[(1 - (yy + zz)) * sx; (xy - wz) * sy; (xz + wy) * sz; px];
   [(xy + wz) * sx; (1 - (xx + zz)) * sy; (yz - wx) * sz; py];
   [(xz - wy) * sx; (yz + wx) * sy; (1 - (xx + yy)) * sz; pz];
   [0; 0; 0; 1]].

#[export] Instance linalg : Linalg := {|
  Vector3 := Z * Z * Z;
  Quaternion := Z * Z * Z * Z;
  Matrix4 := list (list Z);
  Vector3_new := λ x y z, (x, y, z);
  Quaternion_new := (0, 0, 0, 1);
  Matrix4_new := identity;
  compose := mcompose;
  multiply_matrices := mmul
|}.

End ZLinalg.

(** ** Python values reaching the material setters *)

Inductive pyval :=
| PNone
| PBool (b : bool)
| PInt (n : Z)
| PFloat (q : Q)
| PStr (s : string)
| PTuple (vs : list pyval)
| PTexture (id : nat).

(** [bool(v)]; a [Texture] defines neither [__bool__] nor [__len__]. *)
Definition truthy (v : pyval) : bool :=
  match v with
  | PNone => false
  | PBool b => b
  | PInt n => negb (Z.eqb n 0)
  | PFloat q => negb (Qeq_bool q 0)
  | PStr s => negb (String.eqb s "")
  | PTuple vs => negb (Nat.eqb (length vs) 0)
  | PTexture _ => true
  end.

(** [a or b] *)
Definition py_or (a b : pyval) : pyval := if truthy a then a else b.

(** [v in E] for an enum [E] given by its field names: [E.__contains__]
    compares [v] with each name, and only a string equals a string. *)
Definition py_in (v : pyval) (fields : list string) : bool :=
  match v with
  | PStr s => bool_decide (s ∈ fields)
  | _ => false
  end.

Definition is_None (v : pyval) : bool :=
  match v with PNone => true | _ => false end.

(** [isinstance(v, Texture)] *)
Definition isinstance_Texture (v : pyval) : bool :=
  match v with PTexture _ => true | _ => false end.

(** Exceptions raised by the setters.  The message of the [ValueError] is
    [f"{prop} must be a string in {enum}, not {repr(value)}"]; its three
    parts are kept apart.  [OverflowError] is what assigning a number too
    large for a float to a field of the uniform buffer raises. *)
Inductive exn :=
| ValueError (prop : string) (enum : list string) (value : pyval)
| AssertionError
| OverflowError.

Inductive outcome :=
| Returned
| Raised (e : exn).

(** An RGBA colour ([pygfx.utils.Color]); channels are rationals, which
    every finite float is, and [<] on them is exact. *)
Module Color.
Record t := mk { r : Q; g : Q; b : Q; a : Q }.
End Color.

(** [x < y] on numbers *)
Definition Qltb (x y : Q) : bool := negb (Qle_bool y x).

(** Modelled from the spec: the packed uniform buffer of the material base
    class is not under src/.  It holds the named fields [color] and [size]
    and the element ranges written since the last flush; [update_range]
    records one. *)
Record UniformBuffer := mkUniformBuffer {
  data_color : Color.t;
  data_size : Q;
  pending : list (nat * nat)
}.

Definition update_range (offset size : nat) (u : UniformBuffer) : UniformBuffer :=
  mkUniformBuffer (data_color u) (data_size u) (pending u ++ [(offset, size)]).

Definition set_data_color (c : Color.t) (u : UniformBuffer) : UniformBuffer :=
  mkUniformBuffer c (data_size u) (pending u).

(** A material instance: the attribute namespace [self._store] and
    [self.uniform_buffer]. *)
Record Material := mkMaterial {
  _store : gmap string pyval;
  uniform_buffer : UniformBuffer
}.

(** [self._store.<key> = v] *)
Definition store_set (key : string) (v : pyval) (m : Material) : Material :=
  mkMaterial (<[key := v]> (_store m)) (uniform_buffer m).

(** Modelled from the spec: [pygfx.utils.unpack_bitfield] is not under src/.
    It decodes fixed-width fields in a fixed bit layout; the fields are taken
    from the least significant end, in the order the keywords are given. *)
Fixpoint unpack_bitfield (packed : Z) (bit_counts : list (string * Z))
  : gmap string Z :=
  match bit_counts with
  | [] => ∅
  | (key, bits) :: rest =>
      <[key := Z.land packed (2 ^ bits - 1)]>
        (unpack_bitfield (Z.shiftr packed bits) rest)
  end.

(** Modelled from the spec: the encoder of the render path, the inverse of
    [unpack_bitfield] on the same layout: each [(value, bits)] field in turn,
    from the least significant end. *)
Fixpoint pack_bitfield (fields : list (Z * Z)) : Z :=
  match fields with
  | [] => 0
  | (v, bits) :: rest => Z.lor v (Z.shiftl (pack_bitfield rest) bits)
  end.

Section PointsMaterial.

(** The enums of [pygfx.utils.enums], by their field names, and the [Color]
    constructor of [pygfx.utils], which normalises its argument. *)
Variables ColorMode SizeMode CoordSpace : list string.
Variable Color_new : Color.t → Color.t.

(** [PointsMaterial._wgpu_get_pick_info]; a missing key is a [KeyError]
    ([None]).  [int - 256.0] is the float of the exact difference. *)
Definition _wgpu_get_pick_info (pick_value : Z) : option (gmap string pyval) :=
  let values := unpack_bitfield pick_value
                  [("wobject_id", 20); ("index", 26); ("x", 9); ("y", 9)] in
  index ← values !! "index";
  x ← values !! "x";
  y ← values !! "y";
  Some (<["vertex_index" := PInt index]>
        (<["point_coord" := PTuple [PFloat (inject_Z (x - 256));
                                    PFloat (inject_Z (y - 256))]]> ∅)).

(** [PointsMaterial.color] (setter) *)
Definition color_setter (color : Color.t) (m : Material) : outcome * Material :=
  let color := Color_new color in
  let u := set_data_color color (uniform_buffer m) in
  let u := update_range 0 1 u in
  let m := mkMaterial (_store m) u in
  (Returned,
   store_set "color_is_transparent" (PBool (Qltb (Color.a color) 1)) m).

(** [PointsMaterial.color] (getter) *)
Definition color (m : Material) : Color.t :=
  Color_new (data_color (uniform_buffer m)).

(** [PointsMaterial.color_is_transparent] *)
Definition color_is_transparent (m : Material) : option pyval :=
  _store m !! "color_is_transparent".

(** [PointsMaterial.color_mode] (getter); [None] is an [AttributeError]. *)
Definition color_mode (m : Material) : option pyval :=
  _store m !! "color_mode".

(** [PointsMaterial.color_mode] (setter) *)
Definition color_mode_setter (value : pyval) (m : Material) : outcome * Material :=
  let value := py_or value (PStr "auto") in
  if negb (py_in value ColorMode) then
    (Raised (ValueError "PointsMaterial.color_mode" ColorMode value), m)
  else (Returned, store_set "color_mode" value m).

(** [PointsMaterial.size_space] (getter) *)
Definition size_space (m : Material) : option pyval :=
  _store m !! "size_space".

(** [PointsMaterial.size_space] (setter) *)
Definition size_space_setter (value : pyval) (m : Material) : outcome * Material :=
  let value := py_or value (PStr "screen") in
  if negb (py_in value CoordSpace) then
    (Raised (ValueError "PointsMaterial.size_space" CoordSpace value), m)
  else (Returned, store_set "size_space" value m).

(** [PointsMaterial.size_mode] (getter) *)
Definition size_mode (m : Material) : option pyval :=
  _store m !! "size_mode".

(** [PointsMaterial.size_mode] (setter) *)
Definition size_mode_setter (value : pyval) (m : Material) : outcome * Material :=
  let value := py_or value (PStr "uniform") in
  if negb (py_in value SizeMode) then
    (Raised (ValueError "PointsMaterial.size_mode" SizeMode value), m)
  else (Returned, store_set "size_mode" value m).

(** [PointsMaterial.map] (getter) *)
Definition map_ (m : Material) : option pyval :=
  _store m !! "map".

(** [PointsMaterial.map] (setter) *)
Definition map_setter (map : pyval) (m : Material) : outcome * Material :=
  if is_None map || isinstance_Texture map
  then (Returned, store_set "map" map m)
  else (Raised AssertionError, m).

(** [PointsSpriteMaterial.sprite] (getter) *)
Definition sprite (m : Material) : option pyval :=
  _store m !! "sprite".

(** [PointsSpriteMaterial.sprite] (setter) *)
Definition sprite_setter (sprite : pyval) (m : Material) : outcome * Material :=
  if is_None sprite || isinstance_Texture sprite
  then (Returned, store_set "sprite" sprite m)
  else (Raised AssertionError, m).

End PointsMaterial.

(** ** Hierarchies

    The vocabulary of the statements about the scene graph: the shape of a
    hierarchy in the store, the paths from its root, and the product of the
    local matrices along a path. *)

Inductive tree := Node (id : nat) (kids : list tree).

Definition root (t : tree) : nat := match t with Node n _ => n end.

(** All identities of a tree, parents first. *)
Fixpoint nodes (t : tree) : list nat :=
  match t with Node n ks => n :: concat (List.map nodes ks) end.

Fixpoint height (t : tree) : nat :=
  match t with Node _ ks => S (foldr Nat.max O (List.map height ks)) end.

(** The paths from the root of a tree to each of its nodes, as the list of
    identities met on the way (root first, the node last). *)
Fixpoint paths (t : tree) : list (list nat) :=
  match t with
  | Node n ks => [n] :: List.map (cons n) (concat (List.map paths ks))
  end.

Section Hierarchy.
Context {L : Linalg}.

(** The equality of each node's [_children] with the roots of its subtrees
    and of each [parent] with the node above: the store holds tree [t] below
    [par]. *)
Inductive hierarchy (h : heap) : option nat → tree → Prop :=
| hierarchy_node par n ks o :
    h !! n = Some o →
    parent o = par →
    _children o = List.map root ks →
    Forall (hierarchy h (Some n)) ks →
    hierarchy h par (Node n ks).

(** The parent/children wiring that [__init__], [add] and [remove] keep:
    parent references and children lists mirror each other, and no list
    holds an object twice. *)
Record wired (h : heap) : Prop := mk_wired {
  wired_parent : ∀ c oc p, h !! c = Some oc → parent oc = Some p →
                   ∃ op, h !! p = Some op ∧ c ∈ _children op;
  wired_child : ∀ p op c, h !! p = Some op → c ∈ _children op →
                   ∃ oc, h !! c = Some oc ∧ parent oc = Some p;
  wired_nodup : ∀ p op, h !! p = Some op → NoDup (_children op)
}.

(** [h'] has the objects of [h], with parents changed by [fp] and children
    lists by [fc] (both told which object they are looking at). *)
Definition rewired (fp : nat → option nat → option nat)
    (fc : nat → list nat → list nat) (h h' : heap) : Prop :=
  ∀ m, option_Forall2
         (λ om om', parent om' = fp m (parent om) ∧
                    _children om' = fc m (_children om))
         (h !! m) (h' !! m).

(** References are object references: whatever an object names as parent
    or child is in the store. *)
Definition closed (h : heap) : Prop :=
  ∀ n o, h !! n = Some o →
    (∀ p, parent o = Some p → is_Some (h !! p)) ∧
    (∀ c, c ∈ _children o → is_Some (h !! c)).

(** The local matrix [update_matrix] gives an object. *)
Definition local_matrix (o : WorldObject) : Matrix4 :=
  compose (position o) (rotation o) (scale o).

(** Left-to-right product of the local matrices of the objects on [path],
    continuing from [acc] (nothing yet when [None]). *)
Fixpoint chain (h : heap) (acc : option Matrix4) (path : list nat)
  : option Matrix4 :=
  match path with
  | [] => acc
  | n :: rest =>
      o ← h !! n;
      chain h (Some match acc with
                    | None => matrix o
                    | Some w => multiply_matrices w (matrix o)
                    end) rest
  end.

Definition local_product (h : heap) (path : list nat) : option Matrix4 :=
  chain h None path.

(** The attributes [update_matrix_world] never assigns. *)
Definition same_shape (o o' : WorldObject) : Prop :=
  parent o' = parent o ∧ _children o' = _children o ∧
  position o' = position o ∧ rotation o' = rotation o ∧ scale o' = scale o.

(** [h'] differs from [h] at most on the objects in [S], and there only in
    attributes other than those of [same_shape]. *)
Definition preserves (S : list nat) (h h' : heap) : Prop :=
  (∀ n, n ∉ S → h' !! n = h !! n) ∧
  (∀ n o, h !! n = Some o → ∃ o', h' !! n = Some o' ∧ same_shape o o').

(** Every object of [t] is clean, its local matrix is composed from its
    position, rotation and scale, and its world matrix is the world matrix
    of the node above ([pw]; none for a root) times its local matrix. *)
Inductive updated (h : heap) : option Matrix4 → tree → Prop :=
| updated_node pw n ks o :
    h !! n = Some o →
    matrix o = compose (position o) (rotation o) (scale o) →
    matrix_world o = match pw with
                     | None => matrix o
                     | Some w => multiply_matrices w (matrix o)
                     end →
    matrix_world_dirty o = false →
    Forall (updated h (Some (matrix_world o))) ks →
    updated h pw (Node n ks).

(** What a call on the root of [t] with [update_children=True] achieves,
    whatever [force] is and whatever lies above [t]. *)
Definition updates_subtree (t : tree) : Prop :=
  ∀ (h : heap) par fuel force,
    hierarchy h par t → NoDup (nodes t) →
    (∀ p, par = Some p → (p ∉ nodes t) ∧ is_Some (h !! p)) →
    (height t ≤ fuel)%nat →
    ∃ h', update_matrix_world fuel h (root t) force true false = Some h' ∧
          preserves (nodes t) h h' ∧
          updated h' (par ≫= λ p, matrix_world <$> (h !! p)) t.

End Hierarchy.

(** Small scenes over the exact instance. *)
Module Demo.
Import ZLinalg.

(** [obj.position = v], and the like *)
Definition assign_position (n : nat) (v : Z * Z * Z) (h : heap) : heap :=
  alter (set_position (v : Vector3)) n h.
Definition assign_rotation (n : nat) (q : Z * Z * Z * Z) (h : heap) : heap :=
  alter (set_rotation (q : Quaternion)) n h.
Definition assign_scale (n : nat) (v : Z * Z * Z) (h : heap) : heap :=
  alter (set_scale (v : Vector3)) n h.

(** Three fresh objects: 0, 1 and 2. *)
Definition three : heap :=
  (new_object (new_object (new_object ∅).2).2).2.

(** Object 0 already sits under object 2. *)
Definition parented : option heap := add three 2%nat 0%nat.

(** 0 above 1 and 2, 3 under 1, each with a transform of its own. *)
Definition scene : option heap :=
  let h := (new_object three).2 in
  let h := assign_position 0%nat (1, 2, 3) h in
  let h := assign_scale 1%nat (2, 2, 2) h in
  let h := assign_position 2%nat (0, 5, 0) h in
  let h := assign_rotation 3%nat (1, 0, 0, 0) h in
  h ← add h 0%nat 1%nat; h ← add h 0%nat 2%nat; add h 1%nat 3%nat.

Definition scene_tree : tree :=
  Node 0 [Node 1 [Node 3 []]; Node 2 []].

(** The enum fields the specification lists. *)
Definition ColorMode : list string := ["auto"; "uniform"; "vertex"; "face"].
Definition SizeMode : list string := ["uniform"; "vertex"].
Definition CoordSpace : list string := ["screen"; "world"; "model"].

(** A points material as [__init__] leaves it with [color_mode="vertex"]. *)
Definition material : Material :=
  {| _store := list_to_map
       [("size_space", PStr "screen"); ("size_mode", PStr "uniform");
        ("color_is_transparent", PBool false); ("color_mode", PStr "vertex");
        ("map", PNone); ("map_interpolation", PStr "linear");
        ("aa", PBool true)];
     uniform_buffer := {| data_color := Color.mk 1 1 1 1;
                          data_size := 4;
                          pending := [] |} |}.

(** The pick value of the specification's example: object 7, index 123456,
    x = 300 and y = 200. *)
Definition pick_value : Z :=
  pack_bitfield [(7, 20); (123456, 26); (300, 9); (200, 9)].

End Demo.

(** ** The rest of [WorldObject] *)

Section WorldObjectRest.
Context {L : Linalg}.

(** [WorldObject.children]: a tuple, so a copy of the list as it is now;
    [None] when the identity is not in the store. *)
Definition children (h : heap) (self : nat) : option (list nat) :=
  s ← h !! self; Some (_children s).

(** [for x in xs: st = f(st, x)] over any state. *)
Fixpoint for_each_in {S : Type} (f : S → nat → option S) (st : S) (xs : list nat)
  : option S :=
  match xs with
  | [] => Some st
  | x :: xs' => st' ← f st x; for_each_in f st' xs'
  end.

(** [WorldObject.traverse].  The callback is any function of the object it
    is given: it sees and may change the store, and carries a state of its
    own (what a Python closure would keep).  [self.children] is read after
    the callback has run on [self]. *)
Fixpoint traverse {A : Type} (fuel : nat) (callback : nat → heap * A → heap * A)
    (st : heap * A) (self : nat) : option (heap * A) :=
  match fuel with
  | O => None
  | S fuel' =>
      let st1 := callback self st in
      cs ← children st1.1 self;
      for_each_in (traverse fuel' callback) st1 cs
  end.

End WorldObjectRest.

(** The operations of [pygfx.linalg] that [look_at] calls.  Each is the
    value the receiver holds after the call: [v.set_from_matrix_position(m)],
    [m.look_at(eye, target, up)], [q.set_from_rotation_matrix(m)],
    [m.extract_rotation(m')], [q.inverse()] and [q.premultiply(q')]. *)
Class LinalgLookAt (L : Linalg) := {
  set_from_matrix_position : Matrix4 → Vector3;
  Matrix4_look_at : Vector3 → Vector3 → Vector3 → Matrix4;
  set_from_rotation_matrix : Matrix4 → Quaternion;
  extract_rotation : Matrix4 → Matrix4;
  Quaternion_inverse : Quaternion → Quaternion;
  premultiply : Quaternion → Quaternion → Quaternion
}.

Section LookAt.
Context {L : Linalg} {LA : LinalgLookAt L}.

(** [WorldObject.look_at].  The class-level scratch objects [_v], [_m] and
    [_q] are written before they are read in every call, so they are local
    values here. *)
Definition look_at (fuel : nat) (h : heap) (self : nat) (target : Vector3)
  : option heap :=
  h1 ← update_matrix_world fuel h self false false true;
  s ← h1 !! self;
  let _v := set_from_matrix_position (matrix_world s) in
  let _m := Matrix4_look_at _v target (up s) in
  let h2 := <[self := set_rotation (set_from_rotation_matrix _m) s]> h1 in
  s2 ← h2 !! self;
  match parent s2 with
  | Some p =>
      po ← h2 !! p;
      let _m := extract_rotation (matrix_world po) in
      let _q := set_from_rotation_matrix _m in
      s3 ← h2 !! self;
      Some (<[self := set_rotation
                        (premultiply (rotation s3) (Quaternion_inverse _q)) s3]> h2)
  | None => Some h2
  end.

(** The attributes that only assignments from outside and [look_at] change. *)
Definition same_static (o o' : WorldObject) : Prop :=
  parent o' = parent o ∧ _children o' = _children o ∧
  position o' = position o ∧ rotation o' = rotation o ∧ scale o' = scale o ∧
  up o' = up o ∧ visible o' = visible o ∧ render_order o' = render_order o.

(** [h'] has the objects of [h], each with the same static attributes. *)
Definition keeps_static (h h' : heap) : Prop :=
  ∀ m, option_Forall2 same_static (h !! m) (h' !! m).

(** As [same_static], but for the rotation. *)
Definition same_but_rotation (o o' : WorldObject) : Prop :=
  parent o' = parent o ∧ _children o' = _children o ∧
  position o' = position o ∧ scale o' = scale o ∧
  up o' = up o ∧ visible o' = visible o ∧ render_order o' = render_order o.

(** [path] leads from an object whose parent is [par] down the parent
    references: each object on it is the parent of the next. *)
Fixpoint lineage (h : heap) (par : option nat) (path : list nat) : Prop :=
  match path with
  | [] => True
  | n :: rest => (∃ o, h !! n = Some o ∧ parent o = par) ∧ lineage h (Some n) rest
  end.

(** The store with every local matrix composed afresh from the object's
    position, rotation and scale. *)
Definition composed (h : heap) : heap :=
  (λ o, set_matrix (local_matrix o) o) <$> h.

End LookAt.

(** ** Colours as stored *)

(** [2 ^ e] for an integer [e] of either sign *)
Definition Qpow2 (e : Z) : Q :=
  if (0 <=? e)%Z then inject_Z (2 ^ e) else 1 # Z.to_pos (2 ^ (- e)).

(** The integer nearest to [q], the even one of two equally near. *)
Definition round_half_even (q : Q) : Z :=
  let n := Qnum q in
  let d := Z.pos (Qden q) in
  let below := (n / d)%Z in
  let twice_rest := (2 * (n mod d))%Z in
  if (twice_rest <? d)%Z then below
  else if (d <? twice_rest)%Z then (below + 1)%Z
  else if Z.even below then below else (below + 1)%Z.

(** The 4-byte float nearest to [q]: 24 significant bits, round to nearest,
    ties to even (the exponent range is not modelled: no overflow to
    infinity, no subnormal numbers). *)
Definition round_f4 (q : Q) : Q :=
  if Qeq_bool q 0 then 0%Q
  else
    let a := if Qle_bool 0 q then q else Qopp q in
    let e0 := (Z.log2 (Qnum a) - Z.log2 (Z.pos (Qden a)))%Z in
    let e := if Qle_bool (Qpow2 e0) a then e0 else (e0 - 1)%Z in
    let ulp := Qpow2 (e - 23) in
    let n := round_half_even (a / ulp) in
    Qred ((if Qle_bool 0 q then 1 else -1) * inject_Z n * ulp).

(** Modelled from the spec: the [Color] class of [pygfx.utils] is not under
    src/.  A colour is four floats (the uniform field [color] is declared
    ["4xf4"]), so the constructor holds each channel as the nearest 4-byte
    float. *)
Definition Color_f4 (c : Color.t) : Color.t :=
  Color.mk (round_f4 (Color.r c)) (round_f4 (Color.g c))
           (round_f4 (Color.b c)) (round_f4 (Color.a c)).

(** ** The rest of the points materials *)

(** The number a Python value counts as in a comparison, if it is one
    ([True == 1], [1 == 1.0]). *)
Definition py_number (v : pyval) : option Q :=
  match v with
  | PBool b => Some (if b then 1 else 0)%Q
  | PInt n => Some (inject_Z n)
  | PFloat q => Some q
  | _ => None
  end.

(** [a == b] *)
Fixpoint py_eq (a b : pyval) : bool :=
  match a, b with
  | PNone, PNone => true
  | PStr s, PStr t => String.eqb s t
  | PTexture i, PTexture j => Nat.eqb i j
  | PTuple xs, PTuple ys =>
      (fix all2 (xs ys : list pyval) : bool :=
         match xs, ys with
         | [], [] => true
         | x :: xs', y :: ys' => py_eq x y && all2 xs' ys'
         | _, _ => false
         end) xs ys
  | _, _ =>
      match py_number a, py_number b with
      | Some p, Some q => Qeq_bool p q
      | _, _ => false
      end
  end.

(** [v in (item, ...)] for a tuple *)
Definition py_in_tuple (v : pyval) (items : list pyval) : bool :=
  existsb (py_eq v) items.

(** [f(m)] then [g(m)], unless [f] raised. *)
Definition and_then (f g : Material → outcome * Material) (m : Material)
  : outcome * Material :=
  match f m with
  | (Returned, m') => g m'
  | (Raised e, m') => (Raised e, m')
  end.

(** The statements of a body, in order. *)
Definition statements (fs : list (Material → outcome * Material))
  : Material → outcome * Material :=
  foldr and_then (λ m, (Returned, m)) fs.

Definition set_data_size (x : Q) (u : UniformBuffer) : UniformBuffer :=
  mkUniformBuffer (data_color u) x (pending u).

Section PointsMaterialRest.

Variables ColorMode SizeMode CoordSpace : list string.
Variable Color_new : Color.t → Color.t.

(** The value of the enum field [ColorMode.vertex], and the number a
    4-byte float field of the uniform buffer holds after a number is
    assigned to it: none when the number is too large to convert, and the
    assignment raises [OverflowError]. *)
Variable ColorMode_vertex : string.
Variable f4 : Q → option Q.

(** [PointsMaterial.aa] (getter) *)
Definition aa (m : Material) : option pyval :=
  _store m !! "aa".

(** [PointsMaterial.aa] (setter) *)
Definition aa_setter (aa : pyval) (m : Material) : outcome * Material :=
  (Returned, store_set "aa" (PBool (truthy aa)) m).

(** [PointsMaterial.vertex_colors] (getter) *)
Definition vertex_colors (m : Material) : option pyval :=
  cm ← color_mode m; Some (PBool (py_eq cm (PStr ColorMode_vertex))).

(** [PointsMaterial.size] (getter) *)
Definition size (m : Material) : Q :=
  data_size (uniform_buffer m).

(** [PointsMaterial.size] (setter), for a number.  When the assignment to
    the buffer field raises, [update_range] is not reached. *)
Definition size_setter (size : Q) (m : Material) : outcome * Material :=
  match f4 size with
  | None => (Raised OverflowError, m)
  | Some x =>
      let u := set_data_size x (uniform_buffer m) in
      let u := update_range 0 1 u in
      (Returned, mkMaterial (_store m) u)
  end.

(** [PointsMaterial.map_interpolation] (getter) *)
Definition map_interpolation (m : Material) : option pyval :=
  _store m !! "map_interpolation".

(** [PointsMaterial.map_interpolation] (setter) *)
Definition map_interpolation_setter (value : pyval) (m : Material)
  : outcome * Material :=
  if py_in_tuple value [PStr "nearest"; PStr "linear"]
  then (Returned, store_set "map_interpolation" value m)
  else (Raised AssertionError, m).

(** [PointsMaterial.__init__], on the material as [Material.__init__] (not
    under src/) has left it. *)
Definition PointsMaterial_init (size : Q) (size_space size_mode : pyval)
    (color : Color.t) (color_mode map map_interpolation aa : pyval)
  : Material → outcome * Material :=
  statements
    [size_setter size;
     size_space_setter CoordSpace size_space;
     size_mode_setter SizeMode size_mode;
     color_setter Color_new color;
     color_mode_setter ColorMode color_mode;
     map_setter map;
     map_interpolation_setter map_interpolation;
     aa_setter aa].

(** [PointsSpriteMaterial.__init__]; the keyword arguments are those of
    [PointsMaterial.__init__]. *)
Definition PointsSpriteMaterial_init (sprite : pyval) (size : Q)
    (size_space size_mode : pyval) (color : Color.t)
    (color_mode map map_interpolation aa : pyval)
  : Material → outcome * Material :=
  statements
    [PointsMaterial_init size size_space size_mode color color_mode map
       map_interpolation aa;
     sprite_setter sprite].

(** What the validated properties of a points material hold once it is
    constructed: enum fields, a texture or [None], an interpolation name, a
    bool, and a transparency flag that agrees with the colour in the
    buffer. *)
Definition valid (m : Material) : Prop :=
  (∃ s, color_mode m = Some (PStr s) ∧ s ∈ ColorMode) ∧
  (∃ s, size_space m = Some (PStr s) ∧ s ∈ CoordSpace) ∧
  (∃ s, size_mode m = Some (PStr s) ∧ s ∈ SizeMode) ∧
  (map_ m = Some PNone ∨ ∃ id, map_ m = Some (PTexture id)) ∧
  (map_interpolation m = Some (PStr "nearest") ∨
   map_interpolation m = Some (PStr "linear")) ∧
  (∃ b, aa m = Some (PBool b)) ∧
  color_is_transparent m
  = Some (PBool (Qltb (Color.a (data_color (uniform_buffer m))) 1)).

End PointsMaterialRest.

(** Further material for concrete runs. *)
Module DemoMore.
Import ZLinalg Demo.

(** Object 0 added to itself. *)
Definition selfloop : option heap := add three 0%nat 0%nat.

(** White with an alpha of 1 - 2^-30: below 1, and nearer to 1 than to the
    4-byte float below 1. *)
Definition nearly_opaque : Color.t :=
  Color.mk 1 1 1 (1073741823 # 1073741824).

(** A callback that notes the objects it is given and leaves the store. *)
Definition note (n : nat) (st : heap * list nat) : heap * list nat :=
  (st.1, (st.2 ++ [n])%list).

Definition cross (a b : Z * Z * Z) : Z * Z * Z :=
  let '(ax, ay, az) := a in
  let '(bx, by_, bz) := b in
  (ay * bz - az * by_, az * bx - ax * bz, ax * by_ - ay * bx).

Definition entry (m : list (list Z)) (i j : nat) : Z :=
  nth j (nth i m []) 0.

(** The operations [look_at] needs, over the integers and therefore
    without the normalisations (which take square roots): the translation
    column, the look-at basis, the quaternion of the trace branch, the
    upper-left block, the conjugate and the Hamilton product. *)
Definition translation_of (m : list (list Z)) : Z * Z * Z :=
  (entry m 0 3, entry m 1 3, entry m 2 3).

Definition look_at_basis (eye target up_ : Z * Z * Z) : list (list Z) :=
  let '(ex, ey, ez) := eye in
  let '(tx, ty, tz) := target in
  let z := (ex - tx, ey - ty, ez - tz) in
  let x := cross up_ z in
  let y := cross z x in
  [[x.1.1; y.1.1; z.1.1; 0];
   [x.1.2; y.1.2; z.1.2; 0];
   [x.2; y.2; z.2; 0];
   [0; 0; 0; 1]].

Definition quaternion_of (m : list (list Z)) : Z * Z * Z * Z :=
  (entry m 2 1 - entry m 1 2, entry m 0 2 - entry m 2 0,
   entry m 1 0 - entry m 0 1, 1 + entry m 0 0 + entry m 1 1 + entry m 2 2).

Definition rotation_block (m : list (list Z)) : list (list Z) :=
  [[entry m 0 0; entry m 0 1; entry m 0 2; 0];
   [entry m 1 0; entry m 1 1; entry m 1 2; 0];
   [entry m 2 0; entry m 2 1; entry m 2 2; 0];
   [0; 0; 0; 1]].

Definition conjugate (q : Z * Z * Z * Z) : Z * Z * Z * Z :=
  let '(x, y, z, w) := q in (- x, - y, - z, w).

Definition hamilton_left (q p : Z * Z * Z * Z) : Z * Z * Z * Z :=
  let '(qx, qy, qz, qw) := q in
  let '(px, py, pz, pw) := p in
  (px * qw + pw * qx + py * qz - pz * qy,
   py * qw + pw * qy + pz * qx - px * qz,
   pz * qw + pw * qz + px * qy - py * qx,
   pw * qw - px * qx - py * qy - pz * qz).

#[export] Instance look_at_ops : LinalgLookAt linalg := {|
  set_from_matrix_position := translation_of;
  Matrix4_look_at := look_at_basis;
  set_from_rotation_matrix := quaternion_of;
  extract_rotation := rotation_block;
  Quaternion_inverse := conjugate;
  premultiply := hamilton_left
|}.

End DemoMore.

(** * Properties *)

Section WorldObjectFacts.
Context {L : Linalg}.
Implicit Types (h : heap) (o s : WorldObject).

(** ** [update_matrix] and the dirty flag *)

Lemma update_matrix_lookup h self h' :
  update_matrix h self = Some h' →
  ∃ s, h !! self = Some s ∧
       h' = <[self := set_matrix_world_dirty true
                (set_matrix (compose (position s) (rotation s) (scale s)) s)]> h.
Proof.
  unfold update_matrix. destruct (h !! self) as [s|] eqn:E; simpl; [|done].
  intros [= <-]. eauto.
Qed.

Lemma update_matrix_dirty h self h' s' :
  update_matrix h self = Some h' → h' !! self = Some s' →
  matrix_world_dirty s' = true.
Proof.
  intros (s & _ & ->)%update_matrix_lookup. rewrite lookup_insert_eq.
  by intros [= <-].
Qed.

(** C9: [update_matrix] has just set the dirty flag when
    [update_matrix_world] tests [self.matrix_world_dirty or force], so the
    world matrix is recomputed on every call and [force] changes nothing:
    with the same other arguments (and the same call budget), [force=False]
    and [force=True] end in the same state. *)
Theorem update_matrix_world_force_irrelevant :
  ∀ fuel h self update_children update_parents,
    update_matrix_world fuel h self false update_children update_parents
    = update_matrix_world fuel h self true update_children update_parents.
Proof.
  induction fuel as [|fuel IH]; intros h self uc up; [done|].
  simpl. destruct (h !! self) as [s|]; simpl; [|done].
  assert (Hpar : (if up then
                    match parent s with
                    | Some p => update_matrix_world fuel h p false false true
                    | None => Some h
                    end
                  else Some h)
                 = (if up then
                    match parent s with
                    | Some p => update_matrix_world fuel h p true false true
                    | None => Some h
                    end
                  else Some h)).
  { destruct up; [|done]. destruct (parent s); [apply IH|done]. }
  rewrite Hpar. clear Hpar.
  match goal with |- ?m ≫= _ = _ => destruct m as [h1|] end; simpl; [|done].
  destruct (update_matrix h1 self) as [h2|] eqn:Hum; simpl; [|done].
  destruct (h2 !! self) as [s2|] eqn:Hs2; simpl; [|done].
  by rewrite (update_matrix_dirty _ _ _ _ Hum Hs2).
Qed.

(** ** Hierarchies: induction and framing *)

Lemma tree_rect' (P : tree → Prop) :
  (∀ n ks, Forall P ks → P (Node n ks)) → ∀ t, P t.
Proof.
  intros HP. fix IH 1. intros [n ks]. apply HP.
  induction ks as [|k ks IHks]; constructor; [apply IH | apply IHks].
Qed.

Lemma elem_of_concat_map {A B} (f : A → list B) (x : A) (xs : list A) (y : B) :
  x ∈ xs → y ∈ f x → y ∈ concat (List.map f xs).
Proof.
  rewrite !list_elem_of_In. intros Hx Hy. apply in_concat.
  exists (f x). split; [by apply in_map|done].
Qed.

Lemma elem_of_concat_map_inv {A B} (f : A → list B) (xs : list A) (y : B) :
  y ∈ concat (List.map f xs) → ∃ x, x ∈ xs ∧ y ∈ f x.
Proof.
  rewrite list_elem_of_In. intros (l & Hl & Hy)%in_concat.
  apply in_map_iff in Hl as (x & <- & Hx). exists x.
  by rewrite !list_elem_of_In.
Qed.

Lemma same_shape_refl o : same_shape o o.
Proof. by repeat split. Qed.

Lemma same_shape_trans o1 o2 o3 :
  same_shape o1 o2 → same_shape o2 o3 → same_shape o1 o3.
Proof.
  intros (?&?&?&?&?) (?&?&?&?&?). repeat split; congruence.
Qed.

Lemma preserves_refl S h : preserves S h h.
Proof. split; [done|]. intros n o Hn. eauto using same_shape_refl. Qed.

Lemma preserves_trans S1 S2 h1 h2 h3 :
  preserves S1 h1 h2 → preserves S2 h2 h3 → preserves (S1 ++ S2) h1 h3.
Proof.
  intros [Hf1 Hs1] [Hf2 Hs2]. split.
  - intros n Hn. rewrite Hf2, Hf1; [done|..]; set_solver.
  - intros n o Hn. destruct (Hs1 _ _ Hn) as (o2 & Hn2 & Ho2).
    destruct (Hs2 _ _ Hn2) as (o3 & Hn3 & Ho3).
    eauto using same_shape_trans.
Qed.

Lemma preserves_weaken S S' h h' :
  preserves S h h' → (∀ n, n ∈ S → n ∈ S') → preserves S' h h'.
Proof. intros [Hf Hs] Hsub. split; [|done]. intros n Hn. apply Hf. naive_solver. Qed.

Lemma preserves_insert h n o o' :
  h !! n = Some o → same_shape o o' → preserves [n] h (<[n := o']> h).
Proof.
  intros Hn Ho. split.
  - intros m Hm. rewrite lookup_insert_ne; [done|]. set_solver.
  - intros m om Hm. destruct (decide (m = n)) as [->|Hne].
    + rewrite lookup_insert_eq. exists o'. split; [done|]. congruence.
    + rewrite lookup_insert_ne by done. eauto using same_shape_refl.
Qed.

Lemma hierarchy_preserved h h' par t :
  hierarchy h par t →
  (∀ n o, h !! n = Some o → ∃ o', h' !! n = Some o' ∧ same_shape o o') →
  hierarchy h' par t.
Proof.
  intros Ht Hs. revert par Ht. induction t as [n ks IH] using tree_rect'.
  intros par Ht. inversion Ht as [? ? ? o Hn Hp Hc Hks]; subst.
  destruct (Hs _ _ Hn) as (o' & Hn' & (Hp' & Hc' & _)).
  econstructor; [exact Hn'|congruence|congruence|].
  rewrite Forall_forall in IH, Hks |- *. intros k Hk. by apply IH, Hks.
Qed.

Lemma updated_frame h h' pw t :
  updated h pw t → (∀ n, n ∈ nodes t → h' !! n = h !! n) → updated h' pw t.
Proof.
  revert pw. induction t as [n ks IH] using tree_rect'.
  intros pw Ht Hf. inversion Ht as [? ? ? o Hn Hm Hw Hd Hks]; subst.
  econstructor; [|exact Hm|exact Hw|exact Hd|].
  - rewrite Hf; [done|]. simpl. set_solver.
  - rewrite Forall_forall in IH, Hks |- *. intros k Hk. apply IH; [done|by apply Hks|].
    intros m Hm'. apply Hf. simpl. apply elem_of_cons. right.
    by apply (elem_of_concat_map nodes k).
Qed.

Lemma root_in_nodes t : root t ∈ nodes t.
Proof. destruct t; simpl. set_solver. Qed.

Lemma hierarchy_root h par t : hierarchy h par t → ∃ o, h !! root t = Some o ∧ parent o = par.
Proof. inversion 1; subst; simpl; eauto. Qed.

(** ** The loops of [update_matrix_world] *)

Lemma flag_dirty_lookup (cs : list nat) : ∀ h,
  (∀ c, c ∈ cs → is_Some (h !! c)) →
  ∃ h', flag_dirty h cs = Some h' ∧
        ∀ m, h' !! m = if decide (m ∈ cs)
                       then set_matrix_world_dirty true <$> h !! m
                       else h !! m.
Proof.
  induction cs as [|c cs IH]; intros h Hdom; cbn [flag_dirty].
  - exists h. split; [done|]. intros m. by rewrite decide_False by set_solver.
  - destruct (Hdom c ltac:(set_solver)) as [o Ho]. rewrite Ho; simpl.
    destruct (IH (<[c := set_matrix_world_dirty true o]> h)) as (h' & Hfd & Hl).
    { intros c' Hc'. destruct (decide (c' = c)) as [->|Hne].
      - rewrite lookup_insert_eq; eauto.
      - rewrite lookup_insert_ne by done. apply Hdom. set_solver. }
    exists h'. split; [done|]. intros m. rewrite Hl.
    destruct (decide (m = c)) as [->|Hne].
    + rewrite lookup_insert_eq, Ho.
      rewrite (decide_True (P := c ∈ c :: cs)) by (apply elem_of_cons; auto).
      by case_decide.
    + rewrite lookup_insert_ne by done.
      destruct (decide (m ∈ cs)) as [Hin|Hin].
      * by rewrite decide_True by (apply elem_of_cons; auto).
      * rewrite decide_False; [done|]. rewrite elem_of_cons. by intros [?|?].
Qed.

Lemma update_kids fuel n on (ks : list tree) :
  Forall updates_subtree ks →
  ∀ h, h !! n = Some on →
    Forall (hierarchy h (Some n)) ks →
    NoDup (concat (List.map nodes ks)) →
    n ∉ concat (List.map nodes ks) →
    Forall (λ k, height k ≤ fuel)%nat ks →
    ∃ h', for_each (λ h' child, update_matrix_world fuel h' child false true false)
            h (List.map root ks) = Some h' ∧
          preserves (concat (List.map nodes ks)) h h' ∧
          Forall (updated h' (Some (matrix_world on))) ks.
Proof.
  induction 1 as [|k ks Hk _ IH]; intros h Hn Hh Hnd Hnin Hfuel; simpl.
  - exists h. eauto using preserves_refl.
  - simpl in Hnd, Hnin. apply NoDup_app in Hnd as (Hndk & Hdisj & Hndks).
    apply Forall_cons in Hh as [Hhk Hhks]. apply Forall_cons in Hfuel as [Hfk Hfks].
    destruct (Hk h (Some n) fuel false Hhk Hndk) as (h1 & Hrun & Hpres1 & Hupd1); [|done|].
    { intros p [= <-]. split; [set_solver|eauto]. }
    rewrite Hrun; simpl. simpl in Hupd1. rewrite Hn in Hupd1; simpl in Hupd1.
    assert (Hn1 : h1 !! n = Some on).
    { destruct Hpres1 as [Hf _]. rewrite Hf; [done|set_solver]. }
    destruct (IH h1 Hn1) as (h' & Hloop & Hpres2 & Hupd2); [|done|set_solver|done|].
    { eapply Forall_impl; [exact Hhks|]. intros k' Hk'.
      eapply hierarchy_preserved; [exact Hk'|apply Hpres1]. }
    exists h'. split; [done|]. split; [by eapply preserves_trans|].
    constructor; [|done].
    eapply updated_frame; [exact Hupd1|]. intros m Hm.
    destruct Hpres2 as [Hf _]. apply Hf. intros Hm'. by apply (Hdisj m).
Qed.

Lemma height_kids k (ks : list tree) fuel :
  k ∈ ks → (foldr Nat.max O (List.map height ks) ≤ fuel)%nat → (height k ≤ fuel)%nat.
Proof.
  induction ks as [|k' ks IH]; [by intros ?%elem_of_nil|].
  intros [->|Hin]%elem_of_cons; simpl; intros Hle; [lia|]. apply IH; [done|lia].
Qed.

(** A call with [update_children=True] brings the whole subtree up to date,
    touches nothing else, and needs a call budget of the subtree's height. *)
Lemma update_subtree t : updates_subtree t.
Proof.
  induction t as [n ks IH] using tree_rect'.
  intros h par fuel force Hh Hnd Hpar Hfuel.
  destruct fuel as [|fuel]; [simpl in Hfuel; lia|].
  simpl in Hfuel. apply le_S_n in Hfuel.
  inversion Hh as [? ? ? o Hn Hp Hc Hks]; subst.
  simpl in Hnd. apply NoDup_cons in Hnd as [Hnin Hndks].
  cbn [update_matrix_world root]. rewrite Hn; cbn [mbind option_bind].
  unfold update_matrix. rewrite Hn; cbn [mbind option_bind].
  rewrite lookup_insert_eq; cbn [mbind option_bind].
  cbn [set_matrix_world_dirty matrix_world_dirty orb].
  unfold recompute_world. rewrite lookup_insert_eq; cbn [mbind option_bind].
  set (o1 := set_matrix_world_dirty true
               (set_matrix (compose (position o) (rotation o) (scale o)) o)).
  set (pw := parent o ≫= λ p, matrix_world <$> (h !! p)).
  set (mw := match pw with
             | None => matrix o1
             | Some w => multiply_matrices w (matrix o1)
             end).
  assert (Hmw : match parent o1 with
                | Some p => po ← <[n:=o1]> h !! p;
                            Some (multiply_matrices (matrix_world po) (matrix o1))
                | None => Some (matrix o1)
                end = Some mw).
  { subst mw pw. change (parent o1) with (parent o).
    destruct (parent o) as [p|] eqn:Hpo; [|done].
    destruct (Hpar p eq_refl) as [Hpn [po Hpo']].
    rewrite lookup_insert_ne by (intros ->; apply Hpn; simpl; apply elem_of_cons; auto).
    cbn [mbind option_bind]. by rewrite Hpo'. }
  rewrite Hmw; cbn [mbind option_bind].
  rewrite lookup_insert_eq; cbn [mbind option_bind].
  rewrite lookup_insert_eq; cbn [mbind option_bind].
  rewrite !insert_insert_eq.
  set (o3 := set_matrix_world_dirty false (set_matrix_world mw o1)).
  change (_children o3) with (_children o). rewrite Hc.
  assert (Hroots : ∀ c, c ∈ List.map root ks → c ∈ concat (List.map nodes ks)).
  { intros c (k & -> & Hk)%list_elem_of_fmap.
    apply (elem_of_concat_map nodes k); [done|apply root_in_nodes]. }
  destruct (flag_dirty_lookup (List.map root ks) (<[n:=o3]> h)) as (h3 & Hfd & Hl3).
  { intros c Hc'. assert (c ≠ n) by (intros ->; by apply Hnin, Hroots).
    rewrite lookup_insert_ne by done.
    apply list_elem_of_fmap in Hc' as (k & -> & Hk).
    rewrite Forall_forall in Hks.
    destruct (hierarchy_root _ _ _ (Hks _ Hk)) as (ok & Hok & _). eauto. }
  rewrite Hfd; cbn [mbind option_bind].
  assert (Hn3 : h3 !! n = Some o3).
  { rewrite Hl3, decide_False by (intros ?; by apply Hnin, Hroots).
    apply lookup_insert_eq. }
  rewrite Hn3; cbn [mbind option_bind].
  change (_children o3) with (_children o). rewrite Hc.
  assert (Hpres3 : preserves (n :: concat (List.map nodes ks)) h h3).
  { split.
    - intros m Hm. apply not_elem_of_cons in Hm as [Hmn Hm].
      rewrite Hl3, decide_False by (intros ?; by apply Hm, Hroots).
      by rewrite lookup_insert_ne.
    - intros m om Hm. rewrite Hl3.
      assert (∃ om', <[n:=o3]> h !! m = Some om' ∧ same_shape om om') as (om' & -> & Hsh).
      { destruct (decide (m = n)) as [->|Hne].
        - rewrite lookup_insert_eq. exists o3. split; [done|].
          rewrite Hn in Hm. injection Hm as <-. by repeat split.
        - rewrite lookup_insert_ne by done. eauto using same_shape_refl. }
      case_decide; simpl; eexists; (split; [done|]); [|done].
      destruct Hsh as (?&?&?&?&?). by repeat split. }
  destruct (update_kids fuel n o3 ks IH h3 Hn3) as (h' & Hloop & Hpres & Hupd);
    [|done|done| |].
  { eapply Forall_impl; [exact Hks|]. intros k Hk.
    eapply hierarchy_preserved; [exact Hk|apply Hpres3]. }
  { apply Forall_forall. intros k Hk. by eapply height_kids. }
  exists h'. split; [exact Hloop|]. split.
  - eapply preserves_weaken; [eapply preserves_trans; [exact Hpres3|exact Hpres]|].
    intros m [Hm|Hm]%elem_of_app; simpl; [done|]. apply elem_of_cons; auto.
  - fold pw. apply updated_node with (o := o3); [| | | |exact Hupd].
    + destruct Hpres as [Hf _]. by rewrite Hf.
    + done.
    + done.
    + done.
Qed.

(** ** From parent-relative to root-relative world matrices *)

Lemma nodes_paths t n :
  n ∈ nodes t → ∃ path, path ∈ paths t ∧ last path = Some n.
Proof.
  revert n. induction t as [r ks IH] using tree_rect'. intros n. cbn [nodes paths].
  intros [->|Hn]%elem_of_cons.
  - exists [r]. split; [apply elem_of_cons; auto|done].
  - apply elem_of_concat_map_inv in Hn as (k & Hk & Hn).
    rewrite Forall_forall in IH. destruct (IH k Hk n Hn) as (path & Hpath & Hlast).
    exists (r :: path). split.
    + apply elem_of_cons. right. apply list_elem_of_fmap. exists path.
      split; [done|]. by apply (elem_of_concat_map paths k).
    + rewrite last_cons. by rewrite Hlast.
Qed.

Lemma updated_chain t : ∀ h pw path,
  updated h pw t → path ∈ paths t →
  ∃ n o, last path = Some n ∧ h !! n = Some o ∧
         chain h pw path = Some (matrix_world o) ∧
         matrix o = compose (position o) (rotation o) (scale o) ∧
         matrix_world_dirty o = false.
Proof.
  induction t as [r ks IH] using tree_rect'. intros h pw path Hu.
  inversion Hu as [? ? ? o Hr Hm Hw Hd Hks]; subst. cbn [paths].
  intros [->|Hpath]%elem_of_cons.
  - exists r, o. cbn [chain]. rewrite Hr; cbn [mbind option_bind].
    by rewrite <- Hw.
  - apply list_elem_of_fmap in Hpath as (path' & -> & Hpath').
    apply elem_of_concat_map_inv in Hpath' as (k & Hk & Hpath').
    rewrite Forall_forall in IH, Hks.
    destruct (IH k Hk h _ path' (Hks k Hk) Hpath') as (n & on & Hlast & Hn & Hch & Hmn & Hdn).
    exists n, on. rewrite last_cons, Hlast. cbn [chain].
    rewrite Hr; cbn [mbind option_bind]. by rewrite <- Hw.
Qed.

(** C1: in a hierarchy [t] whose root has no parent, whatever the positions,
    rotations and scales, [update_matrix_world(force=True,
    update_children=True)] on the root returns (given a call budget of the
    height of [t]), leaves the wiring and the local transforms as they were,
    and afterwards every node's world matrix is the product, from the root
    down to the node itself, of the local matrices on its path, each local
    matrix being composed from that node's position, rotation and scale; for
    the root that product is its own local matrix. *)
Theorem world_matrix_correct :
  ∀ (h : heap) (t : tree) (fuel : nat),
    hierarchy h None t → NoDup (nodes t) → (height t ≤ fuel)%nat →
    ∃ h', update_matrix_world fuel h (root t) true true false = Some h' ∧
          (∃ o, h' !! root t = Some o ∧ matrix_world o = matrix o) ∧
          ∀ n, n ∈ nodes t →
            ∃ path o0 o,
              path ∈ paths t ∧ last path = Some n ∧
              h !! n = Some o0 ∧ h' !! n = Some o ∧ same_shape o0 o ∧
              matrix o = compose (position o0) (rotation o0) (scale o0) ∧
              matrix_world_dirty o = false ∧
              local_product h' path = Some (matrix_world o).
Proof.
  intros h t fuel Hh Hnd Hfuel.
  destruct (update_subtree t h None fuel true Hh Hnd) as (h' & Hrun & Hpres & Hupd);
    [done|done|].
  exists h'. split; [done|]. cbn [mbind option_bind] in Hupd. split.
  - inversion Hupd; subst; simpl; eauto.
  - intros n Hn. destruct (nodes_paths t n Hn) as (path & Hpath & Hlast).
    destruct (updated_chain t h' None path Hupd Hpath)
      as (n' & o & Hlast' & Hn' & Hch & Hm & Hd).
    assert (n' = n) as -> by congruence.
    destruct Hpres as [_ Hshape].
    assert (∃ o0, h !! n = Some o0) as [o0 Ho0].
    { clear -Hh Hn. revert Hh Hn. generalize (@None nat).
      induction t as [r ks IH] using tree_rect'. intros par Hh.
      inversion Hh as [? ? ? o Hr _ _ Hks]; subst. cbn [nodes].
      intros [->|Hn]%elem_of_cons; [eauto|].
      apply elem_of_concat_map_inv in Hn as (k & Hk & Hn).
      rewrite Forall_forall in IH, Hks. eauto. }
    destruct (Hshape n o0 Ho0) as (o' & Ho' & Hsh).
    assert (o' = o) as -> by congruence.
    exists path, o0, o. repeat (split; [done|]). split; [|done].
    destruct Hsh as (_ & _ & <- & <- & <-). done.
Qed.

(** ** Updating one node only *)

(** The state after [update_matrix_world(update_children=False,
    update_parents=False)], object by object. *)
Lemma update_self_only fuel (h : heap) self s force :
  h !! self = Some s →
  (∀ p, parent s = Some p → is_Some (h !! p)) →
  (∀ c, c ∈ _children s → is_Some (h !! c)) →
  ∃ mw h',
    match parent s with
    | None => mw = local_matrix s
    | Some p => ∃ po, h !! p = Some po ∧
                      mw = multiply_matrices (matrix_world po) (local_matrix s)
    end ∧
    update_matrix_world (S fuel) h self force false false = Some h' ∧
    ∀ m, h' !! m =
         let s1 := set_matrix_world_dirty false
                     (set_matrix_world mw (set_matrix (local_matrix s) s)) in
         if decide (m ∈ _children s)
         then set_matrix_world_dirty true <$> (<[self := s1]> h !! m)
         else <[self := s1]> h !! m.
Proof.
  intros Hs Hpar Hkids.
  cbn [update_matrix_world]. rewrite Hs; cbn [mbind option_bind].
  unfold update_matrix. rewrite Hs; cbn [mbind option_bind].
  rewrite lookup_insert_eq; cbn [mbind option_bind].
  cbn [set_matrix_world_dirty matrix_world_dirty orb].
  unfold recompute_world. rewrite lookup_insert_eq; cbn [mbind option_bind].
  fold (local_matrix s).
  set (o1 := set_matrix_world_dirty true (set_matrix (local_matrix s) s)).
  change (parent o1) with (parent s). change (matrix o1) with (local_matrix s).
  assert (∃ mw,
    match parent s with
    | None => mw = local_matrix s
    | Some p => ∃ po, h !! p = Some po ∧
                      mw = multiply_matrices (matrix_world po) (local_matrix s)
    end ∧
    match parent s with
    | Some p => po ← <[self:=o1]> h !! p;
                Some (multiply_matrices (matrix_world po) (local_matrix s))
    | None => Some (local_matrix s)
    end = Some mw) as (mw & Hmw & ->).
  { destruct (parent s) as [p|]; [|eauto].
    destruct (Hpar p eq_refl) as [po Hpo].
    destruct (decide (p = self)) as [->|Hne].
    - rewrite lookup_insert_eq; cbn [mbind option_bind].
      eexists. split; [|done]. exists s. split; [done|]. done.
    - rewrite lookup_insert_ne by done. rewrite Hpo; cbn [mbind option_bind]. eauto. }
  cbn [mbind option_bind].
  rewrite lookup_insert_eq; cbn [mbind option_bind].
  rewrite lookup_insert_eq; cbn [mbind option_bind].
  rewrite !insert_insert_eq.
  set (s1 := set_matrix_world_dirty false (set_matrix_world mw o1)).
  change (_children s1) with (_children s).
  destruct (flag_dirty_lookup (_children s) (<[self:=s1]> h)) as (h' & -> & Hl).
  { intros c Hc. destruct (decide (c = self)) as [->|Hne].
    - rewrite lookup_insert_eq; eauto.
    - rewrite lookup_insert_ne by done. by apply Hkids. }
  exists mw, h'. split; [done|]. split; [done|]. exact Hl.
Qed.

(** C4: a call of [update_matrix_world] on [self] alone
    ([update_children=False], no parents) returns, and whatever [force] is it
    recomputes the world matrix of [self] from its current position,
    rotation and scale, clears the dirty flag of [self] and sets the dirty
    flag of every direct child.  A later call that reaches such a child, again
    whatever its [force], gives the child the world matrix of [self] times the
    child's own local matrix: nothing stale is left. *)
Theorem dirty_propagation :
  ∀ (fuel fuel' : nat) (h : heap) self s (force force' : bool),
    closed h → h !! self = Some s → self ∉ _children s →
    ∃ h' s',
      update_matrix_world (S fuel) h self force false false = Some h' ∧
      h' !! self = Some s' ∧
      matrix_world_dirty s' = false ∧
      matrix s' = local_matrix s ∧
      match parent s with
      | None => matrix_world s' = local_matrix s
      | Some p => ∃ po, h !! p = Some po ∧
          matrix_world s' = multiply_matrices (matrix_world po) (local_matrix s)
      end ∧
      (∀ c, c ∈ _children s →
         ∃ oc, h' !! c = Some oc ∧ matrix_world_dirty oc = true) ∧
      (∀ c oc, c ∈ _children s → h !! c = Some oc → parent oc = Some self →
         ∃ h'' oc',
           update_matrix_world (S fuel') h' c force' false false = Some h'' ∧
           h'' !! c = Some oc' ∧
           matrix_world oc'
           = multiply_matrices (matrix_world s') (local_matrix oc)).
Proof.
  intros fuel fuel' h self s force force' Hcl Hs Hself.
  destruct (Hcl _ _ Hs) as [Hpar Hkids].
  destruct (update_self_only fuel h self s force Hs Hpar Hkids)
    as (mw & h' & Hmw & Hrun & Hl).
  cbn zeta in Hl.
  set (s1 := set_matrix_world_dirty false
               (set_matrix_world mw (set_matrix (local_matrix s) s))) in *.
  assert (Hs' : h' !! self = Some s1).
  { by rewrite Hl, decide_False, lookup_insert_eq. }
  assert (Hkid : ∀ c oc, c ∈ _children s → h !! c = Some oc →
                 h' !! c = Some (set_matrix_world_dirty true oc)).
  { intros c oc Hc Hoc. rewrite Hl, decide_True by done.
    rewrite lookup_insert_ne by (by intros ->). by rewrite Hoc. }
  exists h', s1. split; [done|]. split; [done|]. split; [done|]. split; [done|].
  split; [|split].
  - destruct (parent s) as [p|]; [|by subst mw].
    destruct Hmw as (po & Hpo & ->). eauto.
  - intros c Hc. destruct (Hkids c Hc) as [oc Hoc].
    exists (set_matrix_world_dirty true oc). split; [by apply Hkid|done].
  - intros c oc Hc Hoc Hpc.
    assert (Hne : c ≠ self) by (by intros ->).
    destruct (Hcl _ _ Hoc) as [_ Hkids_c].
    destruct (update_self_only fuel' h' c (set_matrix_world_dirty true oc) force')
      as (mw' & h'' & Hmw' & Hrun' & Hl'); [by apply Hkid| | |].
    + intros p Hp. cbn in Hp. rewrite Hpc in Hp. injection Hp as <-. by rewrite Hs'.
    + intros c' Hc'. cbn in Hc'. destruct (Hkids_c c' Hc') as [oc' Hoc'].
      rewrite Hl. destruct (decide (c' = self)) as [->|Hne'].
      * rewrite decide_False by done. rewrite lookup_insert_eq. eauto.
      * rewrite lookup_insert_ne by done. rewrite Hoc'. case_decide; simpl; eauto.
    + cbn zeta in Hl'. change (parent (set_matrix_world_dirty true oc)) with (parent oc) in Hmw'.
      rewrite Hpc in Hmw'. destruct Hmw' as (po & Hpo & ->).
      rewrite Hs' in Hpo. injection Hpo as <-.
      change (_children (set_matrix_world_dirty true oc)) with (_children oc) in Hl'.
      specialize (Hl' c). rewrite lookup_insert_eq in Hl'.
      destruct (decide (c ∈ _children oc)); simpl in Hl';
        (eexists h'', _; split; [exact Hrun'|]; split; [exact Hl'|done]).
Qed.

(** ** Wiring: [remove] and [add] *)

Lemma list_remove_subseteq x y (l : list nat) : y ∈ list_remove x l → y ∈ l.
Proof.
  induction l as [|z l IH]; simpl; [done|].
  case_decide; rewrite !elem_of_cons; naive_solver.
Qed.

Lemma list_remove_other x y (l : list nat) : y ≠ x → y ∈ l → y ∈ list_remove x l.
Proof.
  intros Hne. induction l as [|z l IH]; simpl; [done|].
  case_decide; rewrite !elem_of_cons; naive_solver.
Qed.

Lemma list_remove_NoDup x (l : list nat) :
  NoDup l → NoDup (list_remove x l) ∧ x ∉ list_remove x l.
Proof.
  induction 1 as [|z l Hz Hl IH]; simpl.
  - split; [constructor|apply not_elem_of_nil].
  - case_decide as Hxz.
    + subst. by split.
    + destruct IH as [IH1 IH2]. split.
      * constructor; [|done]. intros ?%list_remove_subseteq. done.
      * rewrite elem_of_cons. naive_solver.
Qed.

Lemma list_remove_absent x (l : list nat) : x ∉ l → list_remove x l = l.
Proof.
  induction l as [|z l IH]; simpl; [done|]. rewrite not_elem_of_cons.
  intros [Hne Hin]. rewrite decide_False by done. by rewrite IH.
Qed.

Lemma rewired_fwd fp fc (h h' : heap) m om :
  rewired fp fc h h' → h !! m = Some om →
  ∃ om', h' !! m = Some om' ∧ parent om' = fp m (parent om) ∧
         _children om' = fc m (_children om).
Proof.
  intros Hr Hm. specialize (Hr m). rewrite Hm in Hr.
  inversion Hr as [? om' [? ?]|]; subst. eauto.
Qed.

Lemma rewired_bwd fp fc (h h' : heap) m om' :
  rewired fp fc h h' → h' !! m = Some om' →
  ∃ om, h !! m = Some om ∧ parent om' = fp m (parent om) ∧
        _children om' = fc m (_children om).
Proof.
  intros Hr Hm. specialize (Hr m). rewrite Hm in Hr.
  inversion Hr as [om ? [? ?]|]; subst. eauto.
Qed.

(** Closes one object's case of a [rewired] goal. *)
Ltac rewired_case :=
  constructor; cbn; repeat case_decide; try done; congruence.

(** What [remove] does when [obj] is among the children. *)
Lemma remove_present (h : heap) self obj s o :
  h !! self = Some s → obj ∈ _children s → h !! obj = Some o →
  ∃ h', remove h self obj = Some h' ∧
        rewired (λ m p, if decide (m = obj) then None else p)
                (λ m cs, if decide (m = self) then list_remove obj cs else cs)
                h h'.
Proof.
  intros Hs Hin Ho. unfold remove. rewrite Hs; cbn [mbind option_bind].
  rewrite decide_True by done. rewrite Ho; cbn [mbind option_bind].
  destruct (decide (self = obj)) as [->|Hne].
  - rewrite lookup_insert_eq; cbn [mbind option_bind]. rewrite insert_insert_eq.
    eexists. split; [done|]. intros m.
    destruct (decide (m = obj)) as [->|Hm].
    + rewrite lookup_insert_eq, Ho. rewired_case.
    + rewrite lookup_insert_ne by done. destruct (h !! m); rewired_case.
  - rewrite lookup_insert_ne by done. rewrite Hs; cbn [mbind option_bind].
    eexists. split; [done|]. intros m.
    destruct (decide (m = self)) as [->|Hm].
    + rewrite lookup_insert_eq, Hs. rewired_case.
    + rewrite lookup_insert_ne by done.
      destruct (decide (m = obj)) as [->|Hm'].
      * rewrite lookup_insert_eq, Ho. rewired_case.
      * rewrite lookup_insert_ne by done. destruct (h !! m); rewired_case.
Qed.

Lemma remove_wired (h : heap) self obj s o :
  wired h → h !! self = Some s → obj ∈ _children s → h !! obj = Some o →
  ∃ h' o', remove h self obj = Some h' ∧ wired h' ∧
           h' !! obj = Some o' ∧ parent o' = None ∧
           (∀ m, is_Some (h' !! m) ↔ is_Some (h !! m)).
Proof.
  intros [Hwp Hwc Hwn] Hs Hin Ho.
  destruct (remove_present h self obj s o Hs Hin Ho) as (h' & Hrm & Hr).
  destruct (rewired_fwd _ _ _ _ _ _ Hr Ho) as (o' & Ho' & Hpo' & _).
  rewrite decide_True in Hpo' by done.
  exists h', o'. split; [done|]. split; [|split; [done|split; [done|]]].
  - split.
    + intros c oc p Hc Hp.
      destruct (rewired_bwd _ _ _ _ _ _ Hr Hc) as (oc0 & Hc0 & Hpc & _).
      rewrite Hp in Hpc. case_decide as Hco; [done|].
      destruct (Hwp c oc0 p Hc0 (eq_sym Hpc)) as (op & Hop & Hcin).
      destruct (rewired_fwd _ _ _ _ _ _ Hr Hop) as (op' & Hop' & _ & Hcs).
      exists op'. split; [done|]. rewrite Hcs.
      case_decide; [by apply list_remove_other|done].
    + intros p op c Hp Hcin.
      destruct (rewired_bwd _ _ _ _ _ _ Hr Hp) as (op0 & Hp0 & _ & Hcs).
      rewrite Hcs in Hcin.
      assert (c ∈ _children op0 ∧ c ≠ obj) as [Hcin0 Hne].
      { case_decide as Hps.
        - subst p. split; [by eapply list_remove_subseteq|].
          intros ->. by apply (list_remove_NoDup obj _ (Hwn _ _ Hp0)).
        - split; [done|]. intros ->.
          destruct (Hwc _ _ _ Hp0 Hcin) as (? & ? & Hp1).
          destruct (Hwc _ _ _ Hs Hin) as (? & ? & Hp2). congruence. }
      destruct (Hwc _ _ _ Hp0 Hcin0) as (oc0 & Hoc0 & Hpc0).
      destruct (rewired_fwd _ _ _ _ _ _ Hr Hoc0) as (oc' & Hoc' & Hpc' & _).
      exists oc'. split; [done|]. rewrite Hpc'. by rewrite decide_False.
    + intros p op Hp.
      destruct (rewired_bwd _ _ _ _ _ _ Hr Hp) as (op0 & Hp0 & _ & ->).
      case_decide; [|by eapply Hwn]. by apply list_remove_NoDup, (Hwn _ _ Hp0).
  - intros m. specialize (Hr m). split; intros [? Hm]; rewrite Hm in Hr;
      inversion Hr; eauto.
Qed.

(** The stores a program builds are wired: the empty one is, and
    [WorldObject()] keeps it so ([remove_wired] and [add_wired] do the rest). *)
Lemma wired_empty : wired (∅ : heap).
Proof. split; intros *; by rewrite lookup_empty. Qed.

Lemma wired_new_object (h : heap) : wired h → wired (new_object h).2.
Proof.
  intros [Hwp Hwc Hwn]. cbn [new_object snd].
  set (n := fresh (dom h)).
  assert (Hn : h !! n = None) by (apply not_elem_of_dom, is_fresh).
  split.
  - intros c oc p. destruct (decide (c = n)) as [->|Hc].
    + rewrite lookup_insert_eq. by intros [= <-].
    + rewrite lookup_insert_ne by done. intros Hoc Hp.
      destruct (Hwp _ _ _ Hoc Hp) as (op & Hop & Hin). exists op. split; [|done].
      rewrite lookup_insert_ne; [done|]. intros <-. congruence.
  - intros p op c. destruct (decide (p = n)) as [->|Hp].
    + rewrite lookup_insert_eq. intros [= <-]. by intros ?%elem_of_nil.
    + rewrite lookup_insert_ne by done. intros Hop Hin.
      destruct (Hwc _ _ _ Hop Hin) as (oc & Hoc & Hpc). exists oc. split; [|done].
      rewrite lookup_insert_ne; [done|]. intros <-. congruence.
  - intros p op. destruct (decide (p = n)) as [->|Hp].
    + rewrite lookup_insert_eq. intros [= <-]. constructor.
    + rewrite lookup_insert_ne by done. apply Hwn.
Qed.

Lemma wired_closed (h : heap) : wired h → closed h.
Proof.
  intros [Hwp Hwc _] n o Hn. split.
  - intros p Hp. destruct (Hwp _ _ _ Hn Hp) as (? & ? & _). eauto.
  - intros c Hc. destruct (Hwc _ _ _ Hn Hc) as (? & ? & _). eauto.
Qed.

(** Assigning a transform attribute does not touch the wiring. *)
Lemma wired_alter (f : WorldObject → WorldObject) n (h : heap) :
  (∀ o, parent (f o) = parent o) → (∀ o, _children (f o) = _children o) →
  wired h → wired (alter f n h).
Proof.
  intros Hfp Hfc [Hwp Hwc Hwn].
  assert (Hfwd : ∀ m om, h !! m = Some om →
            ∃ om', alter f n h !! m = Some om' ∧ parent om' = parent om ∧
                   _children om' = _children om).
  { intros m om Hm. destruct (decide (n = m)) as [->|Hne].
    - rewrite lookup_alter_eq, Hm; simpl; eauto.
    - rewrite lookup_alter_ne by done. eauto. }
  assert (Hbwd : ∀ m om', alter f n h !! m = Some om' →
            ∃ om, h !! m = Some om ∧ parent om' = parent om ∧
                  _children om' = _children om).
  { intros m om'. destruct (decide (n = m)) as [->|Hne].
    - rewrite lookup_alter_eq. destruct (h !! m) as [om|]; simpl; intros [= <-]; eauto.
    - rewrite lookup_alter_ne by done. eauto. }
  split.
  - intros c oc p Hc Hp. destruct (Hbwd _ _ Hc) as (oc0 & Hc0 & Hpc & _).
    rewrite Hpc in Hp. destruct (Hwp _ _ _ Hc0 Hp) as (op & Hop & Hin).
    destruct (Hfwd _ _ Hop) as (op' & Hop' & _ & Hcs). exists op'. by rewrite Hcs.
  - intros p op c Hp Hin. destruct (Hbwd _ _ Hp) as (op0 & Hp0 & _ & Hcs).
    rewrite Hcs in Hin. destruct (Hwc _ _ _ Hp0 Hin) as (oc & Hoc & Hpc).
    destruct (Hfwd _ _ Hoc) as (oc' & Hoc' & Hpc' & _). exists oc'. by rewrite Hpc'.
  - intros p op Hp. destruct (Hbwd _ _ Hp) as (op0 & Hp0 & _ & ->). by eapply Hwn.
Qed.

(** What [add] does after the orphaning step has produced [h1]. *)
Lemma add_rewired (h h1 : heap) self obj o o1 s1 :
  h !! obj = Some o →
  match parent o with Some p => remove h p obj | None => Some h end = Some h1 →
  h1 !! obj = Some o1 → h1 !! self = Some s1 →
  ∃ h', add h self obj = Some h' ∧
        rewired (λ m p, if decide (m = obj) then Some self else p)
                (λ m cs, if decide (m = self) then (cs ++ [obj])%list else cs)
                h1 h'.
Proof.
  intros Ho Horphan Ho1 Hs1. unfold add. rewrite Ho; cbn [mbind option_bind].
  rewrite Horphan; cbn [mbind option_bind]. rewrite Ho1; cbn [mbind option_bind].
  destruct (decide (self = obj)) as [->|Hne].
  - rewrite !lookup_insert_eq; cbn [mbind option_bind].
    rewrite !lookup_insert_eq; cbn [mbind option_bind]. rewrite !insert_insert_eq.
    eexists. split; [done|]. intros m.
    destruct (decide (m = obj)) as [->|Hm].
    + rewrite lookup_insert_eq, Ho1. rewired_case.
    + rewrite lookup_insert_ne by done. destruct (h1 !! m); rewired_case.
  - rewrite lookup_insert_ne by done. rewrite Hs1; cbn [mbind option_bind].
    rewrite lookup_insert_ne by done. rewrite lookup_insert_eq; cbn [mbind option_bind].
    eexists. split; [done|]. intros m.
    destruct (decide (m = obj)) as [->|Hm].
    + rewrite lookup_insert_eq, Ho1. rewired_case.
    + rewrite lookup_insert_ne by done.
      destruct (decide (m = self)) as [->|Hm'].
      * rewrite lookup_insert_eq, Hs1. rewired_case.
      * rewrite !lookup_insert_ne by done. destruct (h1 !! m); rewired_case.
Qed.

(** [add] between objects of a wired store returns, keeps the store wired,
    and makes [self] the parent of [obj]. *)
Lemma add_wired (h : heap) self obj :
  wired h → is_Some (h !! self) → is_Some (h !! obj) →
  ∃ h' o', add h self obj = Some h' ∧ wired h' ∧
           h' !! obj = Some o' ∧ parent o' = Some self ∧
           (∀ m, is_Some (h' !! m) ↔ is_Some (h !! m)).
Proof.
  intros Hw [s Hs] [o Ho].
  assert (∃ h1 o1,
    match parent o with Some p => remove h p obj | None => Some h end = Some h1 ∧
    wired h1 ∧ h1 !! obj = Some o1 ∧ parent o1 = None ∧
    (∀ m, is_Some (h1 !! m) ↔ is_Some (h !! m)))
    as (h1 & o1 & Horphan & [Hwp Hwc Hwn] & Ho1 & Hpo1 & Hdom1).
  { destruct (parent o) as [p|] eqn:Hp.
    - destruct (wired_parent h Hw _ _ _ Ho Hp) as (op & Hop & Hin).
      by apply (remove_wired h p obj op o).
    - exists h, o. do 4 (split; [done|]). done. }
  assert (is_Some (h1 !! self)) as [s1 Hs1] by (apply Hdom1; eauto).
  destruct (add_rewired h h1 self obj o o1 s1 Ho Horphan Ho1 Hs1) as (h' & Hadd & Hr).
  destruct (rewired_fwd _ _ _ _ _ _ Hr Ho1) as (o' & Ho' & Hpo' & _).
  rewrite decide_True in Hpo' by done.
  assert (Hfree : ∀ p op, h1 !! p = Some op → obj ∉ _children op).
  { intros p op Hp Hin. destruct (Hwc _ _ _ Hp Hin) as (? & ? & ?). congruence. }
  exists h', o'. split; [done|]. split; [|split; [done|split; [done|]]].
  - split.
    + intros c oc p Hc Hp.
      destruct (rewired_bwd _ _ _ _ _ _ Hr Hc) as (oc1 & Hc1 & Hpc & _).
      rewrite Hp in Hpc. case_decide as Hco.
      * injection Hpc as ->. subst c.
        destruct (rewired_fwd _ _ _ _ _ _ Hr Hs1) as (s' & Hs' & _ & Hcs).
        exists s'. split; [done|]. rewrite Hcs, decide_True by done.
        apply elem_of_app. right. apply elem_of_cons. auto.
      * destruct (Hwp c oc1 p Hc1 (eq_sym Hpc)) as (op & Hop & Hcin).
        destruct (rewired_fwd _ _ _ _ _ _ Hr Hop) as (op' & Hop' & _ & Hcs).
        exists op'. split; [done|]. rewrite Hcs.
        case_decide; [|done]. apply elem_of_app. auto.
    + intros p op c Hp Hcin.
      destruct (rewired_bwd _ _ _ _ _ _ Hr Hp) as (op1 & Hp1 & _ & Hcs).
      rewrite Hcs in Hcin.
      destruct (decide (c = obj)) as [->|Hco].
      * exists o'. split; [done|]. rewrite Hpo'. f_equal.
        case_decide; [done|]. by destruct (Hfree _ _ Hp1).
      * assert (c ∈ _children op1) as Hcin1.
        { case_decide; [|done]. apply elem_of_app in Hcin as [?|Hc]; [done|].
          apply elem_of_cons in Hc as [?|Hc]; [done|]. by apply elem_of_nil in Hc. }
        destruct (Hwc _ _ _ Hp1 Hcin1) as (oc1 & Hoc1 & Hpc1).
        destruct (rewired_fwd _ _ _ _ _ _ Hr Hoc1) as (oc' & Hoc' & Hpc' & _).
        exists oc'. split; [done|]. rewrite Hpc'. by rewrite decide_False.
    + intros p op Hp.
      destruct (rewired_bwd _ _ _ _ _ _ Hr Hp) as (op1 & Hp1 & _ & ->).
      case_decide; [|by eapply Hwn]. apply NoDup_app. split; [by eapply Hwn|].
      split; [|apply NoDup_singleton].
      intros x Hx [->|Hx']%elem_of_cons; [by apply (Hfree _ _ Hp1)|].
      by apply elem_of_nil in Hx'.
  - intros m. rewrite <- Hdom1. specialize (Hr m).
    split; intros [? Hm]; rewrite Hm in Hr; inversion Hr; eauto.
Qed.

(** C3: in a wired store, for distinct [B] and [C] and any [A], [add(B, A)]
    followed by [add(C, A)] both return; afterwards the parent of [A] is [C],
    [A] is not among the children of [B], the store is still wired, and [C]
    is the only object with [A] among its children. *)
Theorem single_parent :
  ∀ (h : heap) (A B C : nat),
    wired h → B ≠ C →
    is_Some (h !! A) → is_Some (h !! B) → is_Some (h !! C) →
    ∃ h1 h2 oa ob,
      add h B A = Some h1 ∧ add h1 C A = Some h2 ∧
      h2 !! A = Some oa ∧ parent oa = Some C ∧
      h2 !! B = Some ob ∧ (A ∉ _children ob) ∧
      wired h2 ∧
      (∀ p op, h2 !! p = Some op → A ∈ _children op → p = C).
Proof.
  intros h A B C Hw Hne HA HB HC.
  destruct (add_wired h B A Hw HB HA) as (h1 & oa1 & Hadd1 & Hw1 & _ & _ & Hdom1).
  destruct (add_wired h1 C A Hw1) as (h2 & oa & Hadd2 & Hw2 & Hoa & Hpa & Hdom2);
    [by apply Hdom1|by apply Hdom1|].
  assert (Honly : ∀ p op, h2 !! p = Some op → A ∈ _children op → p = C).
  { intros p op Hp Hin. destruct (wired_child h2 Hw2 _ _ _ Hp Hin) as (? & ? & ?).
    congruence. }
  assert (is_Some (h2 !! B)) as [ob Hob] by (by apply Hdom2, Hdom1).
  exists h1, h2, oa, ob. repeat (split; [done|]). split; [|done].
  intros Hin. by apply Hne, (Honly B ob).
Qed.

(** C7: when [child] is not among the children of [parent], [remove]
    returns without raising and the store (so both objects) is as before. *)
Theorem remove_absent :
  ∀ (h : heap) (parent_ child : nat) s,
    h !! parent_ = Some s → child ∉ _children s →
    remove h parent_ child = Some h.
Proof.
  intros h parent_ child s Hs Hnin. unfold remove.
  rewrite Hs; cbn [mbind option_bind]. by rewrite decide_False.
Qed.

End WorldObjectFacts.

(** ** Points materials *)

Section PointsMaterialFacts.
Import Demo.

Example pick_value_bits : pick_value = 0x644b001e24000007.
Proof. reflexivity. Qed.

(** C2, as stated, fails: the dictionary [_wgpu_get_pick_info] returns for
    the example pick value has no [wobject_id] entry. *)
Lemma pick_info_without_wobject_id :
  ¬ ∃ d, _wgpu_get_pick_info pick_value = Some d ∧
         d !! "wobject_id" = Some (PInt 7) ∧
         d !! "vertex_index" = Some (PInt 123456) ∧
         d !! "point_coord" = Some (PTuple [PFloat 44; PFloat (-56)]).
Proof.
  intros (d & Hd & Hid & _). vm_compute in Hd. injection Hd as <-.
  vm_compute in Hid. discriminate.
Qed.

(** C2, amended: for the pick value encoding object 7, index 123456, x = 300
    and y = 200 in the layout 20/26/9/9 bits, [_wgpu_get_pick_info] returns
    exactly [{vertex_index: 123456, point_coord: (44.0, -56.0)}]. *)
Theorem pick_info_decoded :
  _wgpu_get_pick_info pick_value
  = Some (<["vertex_index" := PInt 123456]>
          (<["point_coord" := PTuple [PFloat 44; PFloat (-56)]]> ∅)).
Proof. vm_compute. reflexivity. Qed.

(** *** Enum-valued properties *)

Lemma py_in_truthy (v : pyval) (fields : list string) :
  "" ∉ fields → py_in v fields = true → truthy v = true.
Proof.
  intros Hne. destruct v as [| | | |s| |]; simpl; try done.
  intros Hin%bool_decide_eq_true. apply negb_true_iff, String.eqb_neq.
  by intros ->.
Qed.

Lemma py_or_truthy (v d : pyval) : truthy v = true → py_or v d = v.
Proof. unfold py_or. by intros ->. Qed.

Lemma py_or_falsy (v d : pyval) : truthy v = false → py_or v d = d.
Proof. unfold py_or. by intros ->. Qed.

Lemma py_in_default (d : string) (fields : list string) :
  d ∈ fields → py_in (PStr d) fields = true.
Proof. intros Hd. simpl. by apply bool_decide_eq_true. Qed.

(** C5, as stated, fails: [None] is not a field of the enum, yet assigning it
    raises nothing and replaces the stored ["vertex"] by ["auto"]. *)
Lemma color_mode_none_not_rejected :
  py_in PNone ColorMode = false ∧
  color_mode material = Some (PStr "vertex") ∧
  (color_mode_setter ColorMode PNone material).1 = Returned ∧
  color_mode (color_mode_setter ColorMode PNone material).2 = Some (PStr "auto").
Proof. vm_compute. done. Qed.

(** C5, amended: for an enum whose field names are non-empty, assigning a
    field [v] to [color_mode] succeeds and reading it back gives [v]; assigning
    a truthy value that is not a field raises the [ValueError] naming the
    value and the enum and leaves the material as it was.  (A falsy value
    stands for ["auto"].) *)
Theorem color_mode_roundtrip :
  ∀ (ColorMode : list string) (v : pyval) (m : Material),
    "" ∉ ColorMode →
    (py_in v ColorMode = true →
       (color_mode_setter ColorMode v m).1 = Returned ∧
       color_mode (color_mode_setter ColorMode v m).2 = Some v) ∧
    (py_in v ColorMode = false → truthy v = true →
       color_mode_setter ColorMode v m
       = (Raised (ValueError "PointsMaterial.color_mode" ColorMode v), m)).
Proof.
  intros CM v m Hne. unfold color_mode_setter. split.
  - intros Hin. rewrite (py_or_truthy v) by by eapply py_in_truthy.
    rewrite Hin. cbn. split; [done|]. apply lookup_insert_eq.
  - intros Hout Ht. rewrite (py_or_truthy v) by done. by rewrite Hout.
Qed.

(** C10: when the enums hold the documented defaults, assigning any falsy
    value to [color_mode], [size_space] or [size_mode] raises nothing and
    stores ["auto"], ["screen"] or ["uniform"]. *)
Theorem falsy_becomes_default :
  ∀ (ColorMode SizeMode CoordSpace : list string) (v : pyval) (m : Material),
    "auto" ∈ ColorMode → "screen" ∈ CoordSpace → "uniform" ∈ SizeMode →
    truthy v = false →
    color_mode_setter ColorMode v m
    = (Returned, store_set "color_mode" (PStr "auto") m) ∧
    color_mode (color_mode_setter ColorMode v m).2 = Some (PStr "auto") ∧
    size_space_setter CoordSpace v m
    = (Returned, store_set "size_space" (PStr "screen") m) ∧
    size_space (size_space_setter CoordSpace v m).2 = Some (PStr "screen") ∧
    size_mode_setter SizeMode v m
    = (Returned, store_set "size_mode" (PStr "uniform") m) ∧
    size_mode (size_mode_setter SizeMode v m).2 = Some (PStr "uniform").
Proof.
  intros CM SM CS v m Hc Hs Hm Hv.
  unfold color_mode_setter, size_space_setter, size_mode_setter.
  rewrite !(py_or_falsy v) by done.
  rewrite !py_in_default by done. cbn.
  unfold color_mode, size_space, size_mode. cbn.
  by rewrite !lookup_insert_eq.
Qed.

(** *** Texture-valued properties *)

(** C8: assigning [map] (and [sprite] on the sprite material) succeeds
    exactly when the value is [None] or a [Texture], and then reading the
    property back gives that value; any other value fails the assertion and
    leaves the material as it was. *)
Theorem texture_setters :
  ∀ (v : pyval) (m : Material),
    ((map_setter v m).1 = Returned ↔ v = PNone ∨ ∃ id, v = PTexture id) ∧
    ((sprite_setter v m).1 = Returned ↔ v = PNone ∨ ∃ id, v = PTexture id) ∧
    ((v = PNone ∨ ∃ id, v = PTexture id) →
       map_ (map_setter v m).2 = Some v ∧ sprite (sprite_setter v m).2 = Some v) ∧
    (¬ (v = PNone ∨ ∃ id, v = PTexture id) →
       map_setter v m = (Raised AssertionError, m) ∧
       sprite_setter v m = (Raised AssertionError, m)).
Proof.
  intros v m. unfold map_setter, sprite_setter, map_, sprite.
  destruct v; cbn; rewrite ?lookup_insert_eq;
    (split; [|split; [|split]]); try (split; intros); try done;
    try (intros; done); naive_solver.
Qed.

(** *** Colour and transparency *)

Lemma Qltb_lt (x y : Q) : Qltb x y = true ↔ (x < y)%Q.
Proof.
  unfold Qltb. rewrite negb_true_iff, <- not_true_iff_false, Qle_bool_iff.
  split; [apply Qnot_le_lt|apply Qlt_not_le].
Qed.

(** For a colour whose alpha the [Color] constructor leaves on its side of
    1, one call of the colour setter returns a material whose buffer holds
    the colour, has the write pending, and whose [color_is_transparent] is
    true exactly when the alpha of the colour given is below 1 (and false
    otherwise). *)
Theorem color_transparency :
  ∀ (Color_new : Color.t → Color.t) (c : Color.t) (m : Material),
    ((Color.a (Color_new c) < 1)%Q ↔ (Color.a c < 1)%Q) →
    (color_setter Color_new c m).1 = Returned ∧
    data_color (uniform_buffer (color_setter Color_new c m).2) = Color_new c ∧
    (0%nat, 1%nat) ∈ pending (uniform_buffer (color_setter Color_new c m).2) ∧
    (color_is_transparent (color_setter Color_new c m).2 = Some (PBool true)
       ↔ (Color.a c < 1)%Q) ∧
    (color_is_transparent (color_setter Color_new c m).2 = Some (PBool false)
       ↔ ¬ (Color.a c < 1)%Q).
Proof.
  intros Color_new c m Ha. unfold color_setter, color_is_transparent. cbn.
  rewrite lookup_insert_eq. split; [done|]. split; [done|]. split.
  { apply elem_of_app. right. apply elem_of_cons. auto. }
  rewrite <- Ha, <- Qltb_lt.
  destruct (Qltb (Color.a (Color_new c)) 1); split; split; congruence.
Qed.

Example round_f4_exact :
  round_f4 (1 # 2) = (1 # 2)%Q ∧ round_f4 1 = 1%Q ∧ round_f4 (-3 # 4) = (-3 # 4)%Q.
Proof. vm_compute. done. Qed.

Example round_f4_tenth : round_f4 (1 # 10) = (13421773 # 134217728)%Q.
Proof. vm_compute. reflexivity. Qed.

(** C6, as stated, fails: the alpha 1 - 2^-30 is below 1, but the colour is
    held in 4-byte floats, where this alpha is 1, and the flag is false. *)
Lemma color_transparency_lost_in_rounding :
  (Color.a DemoMore.nearly_opaque < 1)%Q ∧
  (color_setter Color_f4 DemoMore.nearly_opaque material).1 = Returned ∧
  color_is_transparent (color_setter Color_f4 DemoMore.nearly_opaque material).2
  = Some (PBool false).
Proof. split; [reflexivity|]. vm_compute. done. Qed.

(** C6, amended: for every RGBA colour [c], one call of the colour setter
    returns a material whose buffer holds [Color(c)], has the write pending,
    and whose [color_is_transparent] is true exactly when the alpha of
    [Color(c)], the colour as stored, is strictly below 1 (and false
    otherwise): flag and colour are written in the same call. *)
Theorem color_transparency_of_stored :
  ∀ (Color_new : Color.t → Color.t) (c : Color.t) (m : Material),
    (color_setter Color_new c m).1 = Returned ∧
    data_color (uniform_buffer (color_setter Color_new c m).2) = Color_new c ∧
    (0%nat, 1%nat) ∈ pending (uniform_buffer (color_setter Color_new c m).2) ∧
    (color_is_transparent (color_setter Color_new c m).2 = Some (PBool true)
       ↔ (Color.a (Color_new c) < 1)%Q) ∧
    (color_is_transparent (color_setter Color_new c m).2 = Some (PBool false)
       ↔ ¬ (Color.a (Color_new c) < 1)%Q).
Proof.
  intros Color_new c m. unfold color_setter, color_is_transparent. cbn.
  rewrite lookup_insert_eq. split; [done|]. split; [done|]. split.
  { apply elem_of_app. right. apply elem_of_cons. auto. }
  rewrite <- Qltb_lt.
  destruct (Qltb (Color.a (Color_new c)) 1); split; split; congruence.
Qed.

End PointsMaterialFacts.

(** ** The statements at concrete scenes *)

Section Witnesses.
Import ZLinalg Demo.

Ltac hierarchy_shape :=
  repeat lazymatch goal with
         | |- hierarchy _ _ _ =>
             eapply hierarchy_node; [reflexivity|reflexivity|reflexivity|]
         | |- Forall _ _ => constructor
         end.

Ltac present := apply (bool_decide_unpack (is_Some _)); vm_compute; exact I.

Lemma three_wired : wired three.
Proof. unfold three. do 3 apply wired_new_object. apply wired_empty. Qed.

Lemma parented_wired : wired (default ∅ parented).
Proof.
  unfold parented.
  destruct (add_wired three 2 0 three_wired) as (h & _ & -> & Hw & _);
    [present|present|]. done.
Qed.

Lemma scene_wired : wired (default ∅ scene).
Proof.
  unfold scene.
  set (h0 := assign_rotation _ _ _).
  assert (Hw0 : wired h0).
  { subst h0. unfold assign_rotation, assign_position, assign_scale.
    do 4 (apply wired_alter; [done|done|]).
    apply wired_new_object, three_wired. }
  destruct (add_wired h0 0 1 Hw0) as (h1 & _ & -> & Hw1 & _ & _ & Hd1);
    [present|present|]. cbn [mbind option_bind].
  destruct (add_wired h1 0 2 Hw1) as (h2 & _ & -> & Hw2 & _ & _ & Hd2);
    [apply Hd1; present|apply Hd1; present|]. cbn [mbind option_bind].
  destruct (add_wired h2 1 3 Hw2) as (h3 & _ & -> & Hw3 & _);
    [apply Hd2, Hd1; present|apply Hd2, Hd1; present|]. done.
Qed.

(** After the full update of [scene], object 3 (rotated half a turn about x,
    under the doubled object 1, under the translated root). *)
Example scene_world_3 :
  (h' ← update_matrix_world 3 (default ∅ scene) 0%nat true true false;
   matrix_world <$> h' !! 3%nat)
  = Some [[2; 0; 0; 1]; [0; -2; 0; 2]; [0; 0; -2; 3]; [0; 0; 0; 1]].
Proof. vm_compute. reflexivity. Qed.

(** One call too few in the budget and the update does not finish. *)
Example scene_needs_height :
  update_matrix_world 2 (default ∅ scene) 0%nat true true false = None.
Proof. vm_compute. reflexivity. Qed.

Lemma world_matrix_correct_witness :
  ∃ h', update_matrix_world 3 (default ∅ scene) (root scene_tree) true true false
        = Some h' ∧
        (∃ o, h' !! root scene_tree = Some o ∧ matrix_world o = matrix o) ∧
        ∀ n, n ∈ nodes scene_tree →
          ∃ path o0 o,
            path ∈ paths scene_tree ∧ last path = Some n ∧
            default ∅ scene !! n = Some o0 ∧ h' !! n = Some o ∧ same_shape o0 o ∧
            matrix o = compose (position o0) (rotation o0) (scale o0) ∧
            matrix_world_dirty o = false ∧
            local_product h' path = Some (matrix_world o).
Proof.
  apply (world_matrix_correct (default ∅ scene) scene_tree 3).
  - hierarchy_shape.
  - apply (bool_decide_unpack (NoDup (nodes scene_tree))). vm_compute. exact I.
  - simpl. lia.
Defined.

Lemma dirty_propagation_witness :
  ∃ s h' s',
    default ∅ scene !! 1%nat = Some s ∧
    update_matrix_world 1 (default ∅ scene) 1%nat false false false = Some h' ∧
    h' !! 1%nat = Some s' ∧
    matrix_world_dirty s' = false ∧
    ∀ c, c ∈ _children s → ∃ oc, h' !! c = Some oc ∧ matrix_world_dirty oc = true.
Proof.
  eexists.
  destruct (dirty_propagation 0 0 (default ∅ scene) 1%nat _ false false
              (wired_closed _ scene_wired) eq_refl)
    as (h' & s' & Hrun & Hs' & Hd & _ & _ & Hkids & _).
  - apply (bool_decide_unpack (_ ∉ _)). vm_compute. exact I.
  - exists h', s'. split; [reflexivity|]. split; [exact Hrun|].
    split; [exact Hs'|]. split; [exact Hd|]. exact Hkids.
Defined.

Lemma single_parent_witness :
  ∃ h1 h2 oa ob,
    add (default ∅ parented) 1%nat 0%nat = Some h1 ∧
    add h1 2%nat 0%nat = Some h2 ∧
    h2 !! 0%nat = Some oa ∧ parent oa = Some 2%nat ∧
    h2 !! 1%nat = Some ob ∧ (0%nat ∉ _children ob) ∧
    wired h2 ∧
    (∀ p op, h2 !! p = Some op → 0%nat ∈ _children op → p = 2%nat).
Proof.
  apply (single_parent (default ∅ parented) 0 1 2);
    [exact parented_wired|lia|present|present|present].
Defined.

Lemma remove_absent_witness :
  remove (default ∅ scene) 2%nat 3%nat = Some (default ∅ scene).
Proof.
  eapply (remove_absent (default ∅ scene) 2 3); [reflexivity|].
  apply (bool_decide_unpack (_ ∉ _)). vm_compute. exact I.
Defined.

Example falsy_values :
  truthy PNone = false ∧ truthy (PStr "") = false ∧ truthy (PInt 0) = false.
Proof. done. Qed.

Lemma color_mode_roundtrip_witness :
  ((color_mode_setter ColorMode (PStr "uniform") material).1 = Returned ∧
   color_mode (color_mode_setter ColorMode (PStr "uniform") material).2
   = Some (PStr "uniform")) ∧
  color_mode_setter ColorMode (PStr "wireframe") material
  = (Raised (ValueError "PointsMaterial.color_mode" ColorMode (PStr "wireframe")),
     material).
Proof.
  assert (Hne : "" ∉ ColorMode).
  { apply (bool_decide_unpack (_ ∉ _)). vm_compute. exact I. }
  split.
  - apply (proj1 (color_mode_roundtrip ColorMode (PStr "uniform") material Hne)).
    reflexivity.
  - apply (proj2 (color_mode_roundtrip ColorMode (PStr "wireframe") material Hne));
      reflexivity.
Defined.

Lemma falsy_becomes_default_witness :
  color_mode_setter ColorMode PNone material
  = (Returned, store_set "color_mode" (PStr "auto") material) ∧
  color_mode (color_mode_setter ColorMode PNone material).2 = Some (PStr "auto") ∧
  size_space_setter CoordSpace PNone material
  = (Returned, store_set "size_space" (PStr "screen") material) ∧
  size_space (size_space_setter CoordSpace PNone material).2 = Some (PStr "screen") ∧
  size_mode_setter SizeMode PNone material
  = (Returned, store_set "size_mode" (PStr "uniform") material) ∧
  size_mode (size_mode_setter SizeMode PNone material).2 = Some (PStr "uniform").
Proof.
  apply (falsy_becomes_default ColorMode SizeMode CoordSpace PNone material).
  - apply (bool_decide_unpack (_ ∈ _)). vm_compute. exact I.
  - apply (bool_decide_unpack (_ ∈ _)). vm_compute. exact I.
  - apply (bool_decide_unpack (_ ∈ _)). vm_compute. exact I.
  - reflexivity.
Defined.

Lemma color_transparency_witness :
  let c := Color.mk 1 0 0 (1 # 2) in
  let m' := (color_setter id c material).2 in
  (color_setter id c material).1 = Returned ∧
  data_color (uniform_buffer m') = c ∧
  (0%nat, 1%nat) ∈ pending (uniform_buffer m') ∧
  (color_is_transparent m' = Some (PBool true) ↔ (1 # 2 < 1)%Q) ∧
  (color_is_transparent m' = Some (PBool false) ↔ ¬ (1 # 2 < 1)%Q).
Proof.
  apply (color_transparency id (Color.mk 1 0 0 (1 # 2)) material).
  reflexivity.
Defined.

End Witnesses.

(** * Further properties of the scene graph *)

Section WorldObjectMore.
Context {L : Linalg}.
Local Open Scope list_scope.
Implicit Types (h : heap) (o s : WorldObject).

(** ** What the matrix updates never touch *)

Lemma same_static_refl o : same_static o o.
Proof. by repeat split. Qed.

Lemma keeps_static_refl h : keeps_static h h.
Proof. intros m. destruct (h !! m); constructor. apply same_static_refl. Qed.

Lemma keeps_static_trans h1 h2 h3 :
  keeps_static h1 h2 → keeps_static h2 h3 → keeps_static h1 h3.
Proof.
  intros H12 H23 m. specialize (H12 m). specialize (H23 m).
  destruct H12 as [o1 o2 (?&?&?&?&?&?&?&?)|]; inversion H23 as [? o3 (?&?&?&?&?&?&?&?)|];
    subst; constructor.
  repeat split; congruence.
Qed.

Lemma keeps_static_insert h n o o' :
  h !! n = Some o → same_static o o' → keeps_static h (<[n := o']> h).
Proof.
  intros Hn Ho m. destruct (decide (m = n)) as [->|Hne].
  - rewrite lookup_insert_eq, Hn. by constructor.
  - rewrite lookup_insert_ne by done. apply keeps_static_refl.
Qed.

Lemma flag_dirty_keeps (cs : list nat) : ∀ h h',
  flag_dirty h cs = Some h' → keeps_static h h'.
Proof.
  induction cs as [|c cs IH]; intros h h'; cbn [flag_dirty].
  - intros [= <-]. apply keeps_static_refl.
  - destruct (h !! c) as [o|] eqn:Hc; cbn [mbind option_bind]; [|done].
    intros Hrest%IH. eapply keeps_static_trans; [|exact Hrest].
    apply (keeps_static_insert h c o); [done|]. by repeat split.
Qed.

Lemma update_matrix_keeps h self h' :
  update_matrix h self = Some h' → keeps_static h h'.
Proof.
  intros (s & Hs & ->)%update_matrix_lookup.
  apply (keeps_static_insert h self s); [done|]. by repeat split.
Qed.

Lemma recompute_world_keeps h self h' :
  recompute_world h self = Some h' → keeps_static h h'.
Proof.
  unfold recompute_world.
  destruct (h !! self) as [s|] eqn:Hs; cbn [mbind option_bind]; [|done].
  match goal with |- (?e ≫= _) = _ → _ => destruct e as [mw|] end;
    cbn [mbind option_bind]; [|done].
  rewrite lookup_insert_eq; cbn [mbind option_bind].
  rewrite lookup_insert_eq; cbn [mbind option_bind].
  rewrite insert_insert_eq. intros Hfd%flag_dirty_keeps.
  eapply keeps_static_trans; [|exact Hfd].
  apply (keeps_static_insert h self s); [done|]. by repeat split.
Qed.

Lemma for_each_keeps (f : heap → nat → option heap) (xs : list nat) :
  (∀ h x h', f h x = Some h' → keeps_static h h') →
  ∀ h h', for_each f h xs = Some h' → keeps_static h h'.
Proof.
  intros Hf. induction xs as [|x xs IH]; intros h h'; cbn [for_each].
  - intros [= <-]. apply keeps_static_refl.
  - destruct (f h x) as [h1|] eqn:Hx; cbn [mbind option_bind]; [|done].
    intros Hrest%IH. eapply keeps_static_trans; [by eapply Hf|done].
Qed.

Lemma update_matrix_world_keeps :
  ∀ fuel (h : heap) self force update_children update_parents h',
    update_matrix_world fuel h self force update_children update_parents = Some h' →
    keeps_static h h'.
Proof.
  induction fuel as [|fuel IH]; intros h self force uc up h'; [done|].
  cbn [update_matrix_world].
  destruct (h !! self) as [s|] eqn:Hs; cbn [mbind option_bind]; [|done].
  destruct (if up then match parent s with
                       | Some p => update_matrix_world fuel h p force false true
                       | None => Some h
                       end else Some h) as [h1|] eqn:H1;
    cbn [mbind option_bind]; [|done].
  assert (K1 : keeps_static h h1).
  { destruct up; [|injection H1 as <-; apply keeps_static_refl].
    destruct (parent s); [by eapply IH|injection H1 as <-; apply keeps_static_refl]. }
  destruct (update_matrix h1 self) as [h2|] eqn:H2; cbn [mbind option_bind]; [|done].
  destruct (h2 !! self) as [s2|] eqn:Hs2; cbn [mbind option_bind]; [|done].
  destruct (if matrix_world_dirty s2 || force then recompute_world h2 self else Some h2)
    as [h3|] eqn:H3; cbn [mbind option_bind]; [|done].
  assert (K3 : keeps_static h2 h3).
  { destruct (matrix_world_dirty s2 || force);
      [by apply recompute_world_keeps in H3|injection H3 as <-; apply keeps_static_refl]. }
  assert (K : keeps_static h h3).
  { eapply keeps_static_trans; [exact K1|].
    eapply keeps_static_trans; [by eapply update_matrix_keeps|exact K3]. }
  destruct uc; [|by intros [= <-]].
  destruct (h3 !! self) as [s3|]; cbn [mbind option_bind]; [|done].
  intros Hloop. eapply keeps_static_trans; [exact K|].
  eapply for_each_keeps; [|exact Hloop]. intros ? ? ?. apply IH.
Qed.

(** X1: whatever its arguments, a call of [update_matrix_world] that returns
    has neither added nor dropped an object, and has left every object's
    parent, children, position, rotation, scale, up vector, visibility and
    render order as they were: it writes matrices and dirty flags only. *)
Theorem update_matrix_world_writes_matrices_only :
  ∀ fuel (h : heap) self force update_children update_parents h',
    update_matrix_world fuel h self force update_children update_parents = Some h' →
    ∀ m, (is_Some (h' !! m) ↔ is_Some (h !! m)) ∧
         ∀ o o', h !! m = Some o → h' !! m = Some o' →
           parent o' = parent o ∧ _children o' = _children o ∧
           position o' = position o ∧ rotation o' = rotation o ∧
           scale o' = scale o ∧ up o' = up o ∧ visible o' = visible o ∧
           render_order o' = render_order o.
Proof.
  intros fuel h self force uc up h' Hrun m.
  pose proof (update_matrix_world_keeps _ _ _ _ _ _ _ Hrun m) as Hm.
  split.
  - split; intros [x Hx]; rewrite Hx in Hm; inversion Hm; eauto.
  - intros o o' Ho Ho'. rewrite Ho, Ho' in Hm. by inversion Hm.
Qed.

(** ** [traverse] *)

Lemma foldl_callback_hierarchy {A} (callback : nat → heap * A → heap * A)
    (l : list nat) :
  (∀ n st par t, hierarchy st.1 par t → hierarchy (callback n st).1 par t) →
  ∀ st par t, hierarchy st.1 par t →
    hierarchy (foldl (λ st n, callback n st) st l).1 par t.
Proof.
  intros Hcb. induction l as [|x l IH]; intros st par t Ht; cbn [foldl]; [done|].
  by apply IH, Hcb.
Qed.

Lemma traverse_kids {A} (callback : nat → heap * A → heap * A) fuel n
    (ks : list tree) :
  (∀ n st par t, hierarchy st.1 par t → hierarchy (callback n st).1 par t) →
  Forall (λ k, ∀ st par fuel, hierarchy st.1 par k → (height k ≤ fuel)%nat →
            traverse fuel callback st (root k)
            = Some (foldl (λ st n, callback n st) st (nodes k))) ks →
  ∀ st, Forall (hierarchy st.1 (Some n)) ks →
    Forall (λ k, height k ≤ fuel)%nat ks →
    for_each_in (traverse fuel callback) st (List.map root ks)
    = Some (foldl (λ st n, callback n st) st (concat (List.map nodes ks))).
Proof.
  intros Hcb. induction 1 as [|k ks Hk _ IH]; intros st Hh Hf; [done|].
  apply Forall_cons in Hh as [Hhk Hhks]. apply Forall_cons in Hf as [Hfk Hfks].
  cbn [List.map for_each_in concat]. rewrite (Hk st (Some n) fuel Hhk Hfk).
  cbn [mbind option_bind]. rewrite foldl_app. apply IH; [|done].
  eapply Forall_impl; [exact Hhks|]. intros k' Hk'.
  by apply foldl_callback_hierarchy.
Qed.

(** X2: with a callback that leaves the hierarchy as it is (whatever else it
    does to the store or to its own state), [traverse] on the root of a
    hierarchy returns (given a call budget of its height) and has run the
    callback once on every object, each parent before its children and the
    children in list order: the result is the callback folded over the
    pre-order list of the objects. *)
Theorem traverse_preorder :
  ∀ {A} (callback : nat → heap * A → heap * A) (t : tree)
    (st : heap * A) par fuel,
    (∀ n st par t, hierarchy st.1 par t → hierarchy (callback n st).1 par t) →
    hierarchy st.1 par t → (height t ≤ fuel)%nat →
    traverse fuel callback st (root t)
    = Some (foldl (λ st n, callback n st) st (nodes t)).
Proof.
  intros A callback t st par fuel Hcb. revert st par fuel.
  induction t as [n ks IH] using tree_rect'. intros st par fuel Hh Hfuel.
  destruct fuel as [|fuel]; [simpl in Hfuel; lia|].
  simpl in Hfuel. apply le_S_n in Hfuel.
  cbn [traverse root nodes foldl].
  assert (Hh1 := Hcb n st par _ Hh).
  inversion Hh1 as [? ? ? o Hn Hp Hc Hks]; subst.
  unfold children. rewrite Hn; cbn [mbind option_bind]. rewrite Hc.
  apply (traverse_kids callback fuel n ks Hcb); [exact IH|exact Hks|].
  apply Forall_forall. intros k Hk. by eapply height_kids.
Qed.

(** ** More on [add] and [remove] *)

Lemma rewired_dom fp fc (h h' : heap) :
  rewired fp fc h h' → ∀ m, is_Some (h' !! m) ↔ is_Some (h !! m).
Proof.
  intros Hr m. specialize (Hr m).
  split; intros [x Hx]; rewrite Hx in Hr; inversion Hr; eauto.
Qed.

Lemma remove_returns (h : heap) self obj :
  is_Some (h !! self) → is_Some (h !! obj) →
  ∃ h', remove h self obj = Some h' ∧ ∀ m, is_Some (h' !! m) ↔ is_Some (h !! m).
Proof.
  intros [s Hs] [o Ho]. destruct (decide (obj ∈ _children s)) as [Hin|Hnin].
  - destruct (remove_present h self obj s o Hs Hin Ho) as (h' & Hrm & Hr).
    exists h'. split; [done|]. by eapply rewired_dom.
  - exists h. split; [|done]. unfold remove. rewrite Hs; cbn [mbind option_bind].
    by rewrite decide_False.
Qed.

(** X3: in a store without dangling references, [add] between two of its
    objects always returns, whatever the wiring was (no cycle or membership
    check can fail); afterwards [obj.parent] is [self], [obj] is the last
    entry of [self]'s children and [obj] is flagged dirty. *)
Theorem add_attaches :
  ∀ (h : heap) self obj,
    closed h → is_Some (h !! self) → is_Some (h !! obj) →
    ∃ h' o' s',
      add h self obj = Some h' ∧
      h' !! obj = Some o' ∧ parent o' = Some self ∧
      matrix_world_dirty o' = true ∧
      h' !! self = Some s' ∧ last (_children s') = Some obj.
Proof.
  intros h self obj Hcl Hself [o Ho].
  assert (∃ h1, match parent o with Some p => remove h p obj | None => Some h end
                = Some h1 ∧ ∀ m, is_Some (h1 !! m) ↔ is_Some (h !! m))
    as (h1 & Horphan & Hdom).
  { destruct (parent o) as [p|] eqn:Hp; [|by exists h].
    apply remove_returns; [|by eauto]. by apply (proj1 (Hcl _ _ Ho)). }
  assert (is_Some (h1 !! obj)) as [o1 Ho1] by (apply Hdom; eauto).
  assert (is_Some (h1 !! self)) as [s1 Hs1] by (by apply Hdom).
  unfold add. rewrite Ho; cbn [mbind option_bind].
  rewrite Horphan; cbn [mbind option_bind]. rewrite Ho1; cbn [mbind option_bind].
  destruct (decide (self = obj)) as [->|Hne].
  - rewrite !lookup_insert_eq; cbn [mbind option_bind].
    rewrite !lookup_insert_eq; cbn [mbind option_bind].
    eexists _, _, _. split; [done|]. rewrite !lookup_insert_eq.
    split; [done|]. split; [done|]. split; [done|]. split; [done|].
    cbn. apply last_snoc.
  - rewrite lookup_insert_ne by done. rewrite Hs1; cbn [mbind option_bind].
    rewrite lookup_insert_ne by done. rewrite lookup_insert_eq; cbn [mbind option_bind].
    eexists _, _, _. split; [done|]. rewrite lookup_insert_eq.
    split; [done|]. split; [done|]. split; [done|].
    rewrite lookup_insert_ne by done. rewrite lookup_insert_eq.
    split; [done|]. cbn. apply last_snoc.
Qed.

Lemma list_remove_snoc x (l : list nat) : x ∉ l → list_remove x (l ++ [x]) = l.
Proof.
  induction l as [|y l IH]; cbn.
  - intros _. by rewrite decide_True.
  - rewrite not_elem_of_cons. intros [Hne Hnin].
    rewrite decide_False by done. by rewrite IH.
Qed.

(** X4: in a wired store, [add(self, obj)] takes [obj] out of every children
    list and appends it to [self]'s: each list keeps its other entries in
    their order, so re-adding a child of [self] moves it to the end of the
    list. *)
Theorem add_children_order :
  ∀ (h : heap) self obj,
    wired h → is_Some (h !! self) → is_Some (h !! obj) →
    ∃ h', add h self obj = Some h' ∧
      ∀ m om, h !! m = Some om →
        ∃ om', h' !! m = Some om' ∧
               _children om'
               = (list_remove obj (_children om)
                  ++ if decide (m = self) then [obj] else [])%list.
Proof.
  intros h self obj Hw [s Hs] [o Ho].
  assert (∃ h1 o1 s1,
    match parent o with Some p => remove h p obj | None => Some h end = Some h1 ∧
    h1 !! obj = Some o1 ∧ h1 !! self = Some s1 ∧
    ∀ m om, h !! m = Some om →
      ∃ om1, h1 !! m = Some om1 ∧ _children om1 = list_remove obj (_children om))
    as (h1 & o1 & s1 & Horphan & Ho1 & Hs1 & Hkids).
  { destruct (parent o) as [p|] eqn:Hp.
    - destruct (wired_parent h Hw _ _ _ Ho Hp) as (op & Hop & Hin).
      destruct (remove_present h p obj op o Hop Hin Ho) as (h1 & Hrm & Hr).
      destruct (rewired_fwd _ _ _ _ _ _ Hr Ho) as (o1 & Ho1 & _).
      destruct (rewired_fwd _ _ _ _ _ _ Hr Hs) as (s1 & Hs1 & _).
      exists h1, o1, s1. do 3 (split; [done|]). intros m om Hm.
      destruct (rewired_fwd _ _ _ _ _ _ Hr Hm) as (om1 & Hm1 & _ & Hcs).
      exists om1. split; [done|]. rewrite Hcs. case_decide; [done|].
      symmetry. apply list_remove_absent. intros Hin'.
      destruct (wired_child h Hw _ _ _ Hm Hin') as (? & ? & ?). congruence.
    - exists h, o, s. do 3 (split; [done|]). intros m om Hm.
      exists om. split; [done|]. symmetry. apply list_remove_absent. intros Hin'.
      destruct (wired_child h Hw _ _ _ Hm Hin') as (? & ? & ?). congruence. }
  destruct (add_rewired h h1 self obj o o1 s1 Ho Horphan Ho1 Hs1) as (h' & Hadd & Hr).
  exists h'. split; [done|]. intros m om Hm.
  destruct (Hkids m om Hm) as (om1 & Hm1 & Hcs1).
  destruct (rewired_fwd _ _ _ _ _ _ Hr Hm1) as (om' & Hm' & _ & Hcs').
  exists om'. split; [done|]. rewrite Hcs', Hcs1.
  case_decide; [done|]. by rewrite app_nil_r.
Qed.

(** X5: in a wired store, [remove(self, obj)] of a child returns and
    detaches exactly that child: [obj.parent] is [None], [obj] is gone from
    [self]'s children while the other children keep their order, no other
    parent reference or children list changes, and the store stays wired. *)
Theorem remove_detaches :
  ∀ (h : heap) self obj s,
    wired h → h !! self = Some s → obj ∈ _children s →
    ∃ h' o' s',
      remove h self obj = Some h' ∧ wired h' ∧
      h' !! obj = Some o' ∧ parent o' = None ∧
      h' !! self = Some s' ∧ _children s' = list_remove obj (_children s) ∧
      (obj ∉ _children s') ∧
      ∀ m om, h !! m = Some om →
        ∃ om', h' !! m = Some om' ∧
               (m ≠ obj → parent om' = parent om) ∧
               (m ≠ self → _children om' = _children om).
Proof.
  intros h self obj s Hw Hs Hin.
  destruct (wired_child h Hw _ _ _ Hs Hin) as (o & Ho & _).
  destruct (remove_wired h self obj s o Hw Hs Hin Ho)
    as (h' & o' & Hrm & Hw' & Ho' & Hpo' & _).
  destruct (remove_present h self obj s o Hs Hin Ho) as (h'' & Hrm' & Hr).
  assert (h'' = h') as -> by congruence.
  destruct (rewired_fwd _ _ _ _ _ _ Hr Hs) as (s' & Hs' & _ & Hcs).
  rewrite decide_True in Hcs by done.
  exists h', o', s'. do 6 (split; [done|]). split.
  - rewrite Hcs. apply list_remove_NoDup. exact (wired_nodup h Hw _ _ Hs).
  - intros m om Hm. destruct (rewired_fwd _ _ _ _ _ _ Hr Hm) as (om' & Hm' & Hp & Hc).
    exists om'. split; [done|]. split; intros Hne.
    + by rewrite Hp, decide_False.
    + by rewrite Hc, decide_False.
Qed.

(** Resolves lookups through inserts at equal or provably different keys. *)
Ltac lookups :=
  repeat first [rewrite lookup_insert_eq
               |rewrite lookup_insert_ne by congruence];
  cbn [mbind option_bind].

(** X6: in a wired store, adding a parentless object and removing it again
    from the same parent gives back the store it started from, except that
    the object is now flagged dirty. *)
Theorem add_remove_roundtrip :
  ∀ (h : heap) self obj o,
    wired h → is_Some (h !! self) → h !! obj = Some o → parent o = None →
    ∃ h1, add h self obj = Some h1 ∧
          remove h1 self obj = Some (<[obj := set_matrix_world_dirty true o]> h).
Proof.
  intros h self obj o Hw [s Hs] Ho Hpo.
  assert (Hfree : ∀ p op, h !! p = Some op → obj ∉ _children op).
  { intros p op Hp Hin. destruct (wired_child h Hw _ _ _ Hp Hin) as (? & ? & ?).
    congruence. }
  unfold add. rewrite Ho; cbn [mbind option_bind]. rewrite Hpo; cbn [mbind option_bind].
  rewrite Ho; cbn [mbind option_bind].
  destruct (decide (self = obj)) as [->|Hne].
  - rewrite !lookup_insert_eq; cbn [mbind option_bind].
    rewrite !lookup_insert_eq; cbn [mbind option_bind]. rewrite !insert_insert_eq.
    eexists. split; [done|]. unfold remove.
    rewrite lookup_insert_eq; cbn [mbind option_bind].
    rewrite decide_True by (cbn; apply elem_of_app; right; apply elem_of_cons; auto).
    repeat (rewrite lookup_insert_eq; cbn [mbind option_bind]).
    rewrite !insert_insert_eq.
    do 2 f_equal. destruct o; cbn in *. subst.
    rewrite list_remove_snoc; [done|]. by apply (Hfree _ _ Ho).
  - lookups. rewrite Hs; cbn [mbind option_bind]. lookups.
    eexists. split; [done|]. unfold remove. lookups.
    rewrite decide_True by (cbn; apply elem_of_app; right; apply elem_of_cons; auto).
    lookups.
    f_equal. apply map_eq. intros m.
    destruct (decide (m = self)) as [->|Hms].
    + lookups. rewrite Hs.
      f_equal. destruct s; cbn in *.
      rewrite list_remove_snoc; [done|]. by apply (Hfree _ _ Hs).
    + destruct (decide (m = obj)) as [->|Hmo]; lookups; [|done].
      f_equal. destruct o; cbn in *. by subst.
Qed.

(** ** Cycles *)

Lemma for_each_in_stuck {S} (f : S → nat → option S) (P : S → Prop) x (xs : list nat) :
  x ∈ xs →
  (∀ st, P st → f st x = None) →
  (∀ st y st', P st → f st y = Some st' → P st') →
  ∀ st, P st → for_each_in f st xs = None.
Proof.
  intros Hx Hstuck Hkeep. induction xs as [|y xs IH]; intros st HP.
  - by apply elem_of_nil in Hx.
  - cbn [for_each_in]. destruct (f st y) as [st'|] eqn:Hy; cbn [mbind option_bind]; [|done].
    apply elem_of_cons in Hx as [->|Hx].
    + rewrite Hstuck in Hy; done.
    + apply IH; [done|]. by eapply Hkeep.
Qed.

Lemma for_each_as_for_each_in (f : heap → nat → option heap) (xs : list nat) :
  ∀ h, for_each f h xs = for_each_in f h xs.
Proof.
  induction xs as [|x xs IH]; intros h; cbn [for_each for_each_in]; [done|].
  destruct (f h x); cbn [mbind option_bind]; [apply IH|done].
Qed.

Lemma keeps_static_endless (C : nat → Prop) (h h' : heap) :
  keeps_static h h' →
  (∀ n, C n → ∃ s c, h !! n = Some s ∧ c ∈ _children s ∧ C c) →
  (∀ n, C n → ∃ s c, h' !! n = Some s ∧ c ∈ _children s ∧ C c).
Proof.
  intros Hk HC n Hn. destruct (HC n Hn) as (s & c & Hs & Hc & HCc).
  specialize (Hk n). rewrite Hs in Hk. inversion Hk as [? s' (_ & Hcs & _)|]; subst.
  exists s', c. by rewrite Hcs.
Qed.

(** X7: no cycle stops the recursion over children.  If [C] is a set of
    objects each of which has a child in [C] (the objects of a cycle of
    child links, such as the single object of [add(A, A)]), then
    [update_matrix_world(update_children=True)] on an object of [C] does not
    return, whatever the call budget and the other arguments. *)
Theorem update_children_endless_on_cycle :
  ∀ (C : nat → Prop) (h : heap) self fuel force update_parents,
    (∀ n, C n → ∃ s c, h !! n = Some s ∧ c ∈ _children s ∧ C c) →
    C self →
    update_matrix_world fuel h self force true update_parents = None.
Proof.
  intros C h self fuel. revert h self.
  induction fuel as [|fuel IH]; intros h self force up HC Hself; [done|].
  destruct (update_matrix_world (S fuel) h self force true up) as [h'|] eqn:Hrun; [|done].
  exfalso. revert Hrun. cbn [update_matrix_world].
  destruct (h !! self) as [s|] eqn:Hs; cbn [mbind option_bind]; [|done].
  destruct (if up then match parent s with
                       | Some p => update_matrix_world fuel h p force false true
                       | None => Some h
                       end else Some h) as [h1|] eqn:H1;
    cbn [mbind option_bind]; [|done].
  assert (K1 : keeps_static h h1).
  { destruct up; [|injection H1 as <-; apply keeps_static_refl].
    destruct (parent s);
      [by eapply update_matrix_world_keeps|injection H1 as <-; apply keeps_static_refl]. }
  destruct (update_matrix h1 self) as [h2|] eqn:H2; cbn [mbind option_bind]; [|done].
  destruct (h2 !! self) as [s2|] eqn:Hs2; cbn [mbind option_bind]; [|done].
  destruct (if matrix_world_dirty s2 || force then recompute_world h2 self else Some h2)
    as [h3|] eqn:H3; cbn [mbind option_bind]; [|done].
  assert (K3 : keeps_static h h3).
  { eapply keeps_static_trans; [exact K1|].
    eapply keeps_static_trans; [by eapply update_matrix_keeps|].
    destruct (matrix_world_dirty s2 || force);
      [by apply recompute_world_keeps in H3|injection H3 as <-; apply keeps_static_refl]. }
  pose proof (keeps_static_endless C h h3 K3 HC) as HC3.
  destruct (HC3 self Hself) as (s3 & c & Hs3 & Hc & HCc).
  rewrite Hs3; cbn [mbind option_bind]. rewrite for_each_as_for_each_in.
  rewrite (for_each_in_stuck _
             (λ h0, ∀ n, C n → ∃ s c, h0 !! n = Some s ∧ c ∈ _children s ∧ C c)
             c (_children s3)); [done|done| | |done].
  - intros h0 HC0. by apply IH.
  - intros h0 y h0' HC0 Hy. eapply keeps_static_endless; [|exact HC0].
    by eapply update_matrix_world_keeps.
Qed.

(** X8: the same for [traverse]: with a callback that leaves the static
    attributes of the objects alone, a traversal started on an object of a
    cycle of child links does not return, whatever the call budget. *)
Theorem traverse_endless_on_cycle :
  ∀ {A} (callback : nat → heap * A → heap * A) (C : nat → Prop)
    (st : heap * A) self fuel,
    (∀ n st, keeps_static st.1 (callback n st).1) →
    (∀ n, C n → ∃ s c, st.1 !! n = Some s ∧ c ∈ _children s ∧ C c) →
    C self →
    traverse fuel callback st self = None.
Proof.
  intros A callback C st self fuel Hcb. revert st self.
  induction fuel as [|fuel IH]; intros st self HC Hself; [done|].
  cbn [traverse].
  pose proof (keeps_static_endless C _ _ (Hcb self st) HC) as HC1.
  destruct (HC1 self Hself) as (s1 & c & Hs1 & Hc & HCc).
  unfold children. rewrite Hs1; cbn [mbind option_bind].
  apply (for_each_in_stuck _
           (λ st0 : heap * A,
              ∀ n, C n → ∃ s c, st0.1 !! n = Some s ∧ c ∈ _children s ∧ C c)
           c); [done| | |done].
  - intros st0 HC0. by apply IH.
  - intros st0 y st0' HC0 Hy. clear -Hcb HC0 Hy. revert st0 y st0' HC0 Hy.
    induction fuel as [|fuel IHf]; intros st0 y st0' HC0; [done|].
    cbn [traverse].
    pose proof (keeps_static_endless C _ _ (Hcb y st0) HC0) as HCy.
    destruct (children (callback y st0).1 y) as [cs|]; cbn [mbind option_bind]; [|done].
    generalize dependent (callback y st0). clear st0 HC0. intros st1 HC1.
    revert st1 HC1. induction cs as [|x cs IHcs]; intros st1 HC1; cbn [for_each_in].
    + by intros [= <-].
    + destruct (traverse fuel callback st1 x) as [st2|] eqn:Hx;
        cbn [mbind option_bind]; [|done].
      apply IHcs. by eapply IHf.
Qed.

(** ** Updating twice *)

Lemma updated_agree t : ∀ (h1 h2 : heap) pw,
  updated h1 pw t → updated h2 pw t → keeps_static h1 h2 →
  ∀ m, m ∈ nodes t → h1 !! m = h2 !! m.
Proof.
  induction t as [n ks IH] using tree_rect'. intros h1 h2 pw Hu1 Hu2 Hk.
  inversion Hu1 as [? ? ? o1 Hn1 Hm1 Hw1 Hd1 Hks1]; subst.
  inversion Hu2 as [? ? ? o2 Hn2 Hm2 Hw2 Hd2 Hks2]; subst.
  assert (o1 = o2) as <-.
  { pose proof (Hk n) as Hkn. rewrite Hn1, Hn2 in Hkn.
    inversion Hkn as [? ? (?&?&?&?&?&?&?&?)|]; subst.
    destruct o1, o2; cbn in *. subst. destruct pw; by subst. }
  intros m. cbn [nodes]. intros [->|Hm]%elem_of_cons; [congruence|].
  apply elem_of_concat_map_inv in Hm as (k & Hk' & Hm).
  rewrite Forall_forall in IH, Hks1, Hks2.
  exact (IH k Hk' h1 h2 _ (Hks1 k Hk') (Hks2 k Hk') Hk m Hm).
Qed.

(** X9: a full update is idempotent.  After
    [update_matrix_world(update_children=True)] on the root of a hierarchy,
    the same call again (with either value of [force]) returns the store
    unchanged. *)
Theorem full_update_idempotent :
  ∀ (h : heap) (t : tree) (fuel : nat) force force',
    hierarchy h None t → NoDup (nodes t) → (height t ≤ fuel)%nat →
    ∃ h', update_matrix_world fuel h (root t) force true false = Some h' ∧
          update_matrix_world fuel h' (root t) force' true false = Some h'.
Proof.
  intros h t fuel force force' Hh Hnd Hfuel.
  destruct (update_subtree t h None fuel force Hh Hnd) as (h' & Hrun & Hpres & Hupd);
    [done|done|].
  assert (Hh' : hierarchy h' None t) by (eapply hierarchy_preserved; [done|apply Hpres]).
  destruct (update_subtree t h' None fuel force' Hh' Hnd) as (h'' & Hrun' & Hpres' & Hupd');
    [done|done|].
  exists h'. split; [done|]. rewrite Hrun'. f_equal. apply map_eq. intros m.
  destruct (decide (m ∈ nodes t)) as [Hm|Hm].
  - symmetry. eapply updated_agree; [exact Hupd|exact Hupd'| |exact Hm].
    by eapply update_matrix_world_keeps.
  - by apply Hpres'.
Qed.

(** ** Updating up the parent chain *)

Lemma lineage_snoc (h : heap) par (l : list nat) x :
  lineage h par (l ++ [x]) ↔
  lineage h par l ∧ ∃ o, h !! x = Some o ∧ parent o = from_option Some par (last l).
Proof.
  revert par. induction l as [|y l IH]; intros par; cbn [app lineage].
  - cbn. naive_solver.
  - rewrite IH. rewrite last_cons. destruct (last l); cbn; naive_solver.
Qed.

Lemma lineage_lookup (h : heap) (path : list nat) : ∀ par i x,
  lineage h par path → path !! i = Some x →
  ∃ o, h !! x = Some o ∧
       parent o = match i with O => par | S j => path !! j end.
Proof.
  induction path as [|n rest IH]; intros par i x; [done|].
  cbn [lineage]. intros [(o & Ho & Hp) Hrest]. destruct i as [|j]; cbn.
  - intros [= <-]. eauto.
  - intros Hx. destruct (IH (Some n) j x Hrest Hx) as (ox & Hox & Hpx).
    exists ox. split; [done|]. rewrite Hpx. by destruct j.
Qed.

Lemma lineage_NoDup (h : heap) (path : list nat) : lineage h None path → NoDup path.
Proof.
  intros Hl. apply NoDup_alt. intros i. induction i as [|i IH]; intros j x Hi Hj.
  - destruct j as [|j]; [done|]. exfalso.
    destruct (lineage_lookup h path None 0 x Hl Hi) as (o & Ho & Hp).
    destruct (lineage_lookup h path None (S j) x Hl Hj) as (o' & Ho' & Hp').
    assert (is_Some (path !! j)) as [y Hy].
    { apply lookup_lt_is_Some. apply lookup_lt_Some in Hj. lia. }
    congruence.
  - destruct (lineage_lookup h path None (S i) x Hl Hi) as (o & Ho & Hp).
    assert (is_Some (path !! i)) as [y Hy].
    { apply lookup_lt_is_Some. apply lookup_lt_Some in Hi. lia. }
    destruct j as [|j].
    + destruct (lineage_lookup h path None 0 x Hl Hj) as (o' & Ho' & Hp'). congruence.
    + destruct (lineage_lookup h path None (S j) x Hl Hj) as (o' & Ho' & Hp').
      f_equal. apply (IH j y); [done|]. congruence.
Qed.

Lemma lineage_keeps (h h' : heap) (path : list nat) : ∀ par,
  keeps_static h h' → lineage h par path → lineage h' par path.
Proof.
  induction path as [|n rest IH]; intros par Hk; [done|].
  cbn [lineage]. intros [(o & Ho & Hp) Hrest]. split; [|by apply IH].
  specialize (Hk n). rewrite Ho in Hk. inversion Hk as [? o' (Hp' & _)|]; subst.
  exists o'. split; [done|congruence].
Qed.

Lemma closed_keeps (h h' : heap) : keeps_static h h' → closed h → closed h'.
Proof.
  intros Hk Hcl n o' Hn'.
  assert (Hdom : ∀ m, is_Some (h !! m) → is_Some (h' !! m)).
  { intros m [x Hx]. specialize (Hk m). rewrite Hx in Hk. inversion Hk; eauto. }
  pose proof (Hk n) as Hkn. rewrite Hn' in Hkn.
  inversion Hkn as [o ? (Hp & Hc & _) Ho|]; subst. symmetry in Ho.
  destruct (Hcl n o Ho) as [Hpar Hkids]. split.
  - intros p Hp'. apply Hdom, Hpar. congruence.
  - intros c Hc'. apply Hdom, Hkids. congruence.
Qed.

Lemma chain_app (h : heap) (l1 l2 : list nat) : ∀ acc,
  chain h acc (l1 ++ l2)
  = match l1 with
    | [] => chain h acc l2
    | _ => w ← chain h acc l1; chain h (Some w) l2
    end.
Proof.
  induction l1 as [|x l1 IH]; intros acc; [done|].
  cbn [app chain]. destruct (h !! x) as [o|]; cbn [mbind option_bind]; [|done].
  rewrite IH. destruct l1; [done|]. done.
Qed.

Lemma chain_ext (h h' : heap) (path : list nat) : ∀ acc,
  (∀ m, m ∈ path → matrix <$> (h !! m) = matrix <$> (h' !! m)) →
  chain h acc path = chain h' acc path.
Proof.
  induction path as [|n rest IH]; intros acc Hext; [done|].
  cbn [chain]. pose proof (Hext n ltac:(apply elem_of_cons; auto)) as Hn.
  destruct (h !! n) as [o|], (h' !! n) as [o'|]; cbn in Hn; try done.
  cbn [mbind option_bind]. injection Hn as ->. apply IH.
  intros m Hm. apply Hext, elem_of_cons. auto.
Qed.

Lemma update_matrix_world_parents_first fuel (h : heap) self force uc s :
  h !! self = Some s →
  update_matrix_world (S fuel) h self force uc true
  = (h1 ← match parent s with
          | Some p => update_matrix_world fuel h p force false true
          | None => Some h
          end;
     update_matrix_world (S fuel) h1 self force uc false).
Proof.
  intros Hs. cbn [update_matrix_world]. rewrite Hs; cbn [mbind option_bind].
  destruct (match parent s with
            | Some p => update_matrix_world fuel h p force false true
            | None => Some h
            end) as [h1|]; cbn [mbind option_bind]; [|done].
  unfold update_matrix. destruct (h1 !! self); done.
Qed.

Lemma chain_snoc (h : heap) (l1 l2 : list nat) acc w :
  l1 ≠ [] → chain h acc l1 = Some w → chain h acc (l1 ++ l2) = chain h (Some w) l2.
Proof. intros Hne Hw. rewrite chain_app. destruct l1; [done|]. by rewrite Hw. Qed.

(** The two facts about the store after a self-only update that the chain
    argument needs. *)
Lemma update_self_only_result fuel (h : heap) self s force :
  closed h → h !! self = Some s →
  ∃ h' o,
    update_matrix_world (S fuel) h self force false false = Some h' ∧
    h' !! self = Some o ∧ matrix o = local_matrix s ∧ local_matrix o = local_matrix s ∧
    match parent s with
    | None => matrix_world o = local_matrix s
    | Some p => ∃ po, h !! p = Some po ∧
                      matrix_world o = multiply_matrices (matrix_world po) (local_matrix s)
    end ∧
    ∀ m o1, m ≠ self → h !! m = Some o1 →
      ∃ o', h' !! m = Some o' ∧ matrix o' = matrix o1 ∧
            matrix_world o' = matrix_world o1.
Proof.
  intros Hcl Hs. destruct (Hcl _ _ Hs) as [Hpar Hkids].
  destruct (update_self_only fuel h self s force Hs Hpar Hkids)
    as (mw & h' & Hmw & Hrun & Hl). cbn zeta in Hl.
  set (s1 := set_matrix_world_dirty false
               (set_matrix_world mw (set_matrix (local_matrix s) s))) in *.
  assert (∃ o, h' !! self = Some o ∧ matrix o = local_matrix s ∧
               local_matrix o = local_matrix s ∧ matrix_world o = mw)
    as (o & Ho & Hm & Hlm & Hw).
  { rewrite Hl, lookup_insert_eq. case_decide; cbn; eauto. }
  exists h', o. do 4 (split; [done|]). split.
  - rewrite Hw. destruct (parent s); [|done]. destruct Hmw as (po & ? & ?). eauto.
  - intros m o1 Hne Hm1. rewrite Hl, lookup_insert_ne by done. rewrite Hm1.
    case_decide; cbn; eauto.
Qed.

Lemma update_parents_chain (pre : list nat) : ∀ n (h : heap) fuel force,
  closed h → lineage h None (pre ++ [n]) → (length (pre ++ [n]) ≤ fuel)%nat →
  ∃ h', update_matrix_world fuel h n force false true = Some h' ∧
    ∀ k m, (pre ++ [n]) !! k = Some m →
      ∃ o, h' !! m = Some o ∧
           local_product h' (take (S k) (pre ++ [n])) = Some (matrix_world o) ∧
           matrix o = local_matrix o.
Proof.
  unfold local_product.
  induction pre as [|p pre' IH] using rev_ind; intros n h fuel force Hcl Hlin Hfuel.
  - cbn [app] in *. destruct fuel as [|fuel]; [cbn in Hfuel; lia|].
    destruct Hlin as [(s & Hs & Hp) _].
    rewrite (update_matrix_world_parents_first _ _ _ _ _ s Hs), Hp.
    cbn [mbind option_bind].
    destruct (update_self_only_result fuel h n s force Hcl Hs)
      as (h' & o & Hrun & Ho & Hm & Hlm & Hw & _).
    rewrite Hp in Hw. exists h'. split; [done|].
    intros [|k] m; cbn; [|done]. intros [= <-]. exists o. split; [done|].
    rewrite Ho; cbn. split; [|congruence]. f_equal. congruence.
  - pose proof (lineage_NoDup _ _ Hlin) as Hnd.
    apply NoDup_app in Hnd as (_ & Hfresh & _).
    assert (Hn_pre : n ∉ pre' ++ [p]).
    { intros Hin. apply (Hfresh n Hin). apply elem_of_cons. auto. }
    apply lineage_snoc in Hlin as (Hlin & s & Hs & Hp).
    rewrite last_snoc in Hp. cbn in Hp.
    rewrite length_app in Hfuel. cbn in Hfuel.
    destruct fuel as [|fuel]; [lia|].
    destruct (IH p h fuel force Hcl Hlin) as (h1 & Hrun1 & Hchain1); [lia|].
    rewrite (update_matrix_world_parents_first _ _ _ _ _ s Hs), Hp, Hrun1.
    cbn [mbind option_bind].
    pose proof (update_matrix_world_keeps _ _ _ _ _ _ _ Hrun1) as Hk1.
    pose proof (closed_keeps _ _ Hk1 Hcl) as Hcl1.
    assert (∃ s1, h1 !! n = Some s1 ∧ parent s1 = Some p ∧
                  local_matrix s1 = local_matrix s) as (s1 & Hs1 & Hp1 & Hlm1).
    { pose proof (Hk1 n) as Hkn. rewrite Hs in Hkn.
      inversion Hkn as [? s1 (?&?&?&?&?&?)|]; subst. exists s1.
      split; [done|]. split; [congruence|]. unfold local_matrix. congruence. }
    destruct (update_self_only_result fuel h1 n s1 force Hcl1 Hs1)
      as (h' & o & Hrun & Ho & Hm & Hlm & Hw & Hothers).
    rewrite Hp1 in Hw. destruct Hw as (po & Hpo & Hw).
    exists h'. split; [done|].
    assert (Hext : ∀ l, (∀ m, m ∈ l → m ∈ pre' ++ [p]) →
              ∀ acc, chain h' acc l = chain h1 acc l).
    { intros l Hsub acc. apply chain_ext. intros m Hm'.
      assert (m ≠ n) by (intros ->; by apply Hn_pre, Hsub).
      destruct (h1 !! m) as [o1|] eqn:Hm1.
      - destruct (Hothers m o1) as (o' & Ho' & Hmat & _); [done|done|].
        rewrite Ho'. cbn. by rewrite Hmat.
      - pose proof (update_matrix_world_keeps _ _ _ _ _ _ _ Hrun m) as Hkm.
        rewrite Hm1 in Hkm. by inversion Hkm. }
    intros k m Hkm.
    destruct (decide (k < length (pre' ++ [p]))%nat) as [Hlt|Hge].
    + rewrite lookup_app_l in Hkm by done.
      destruct (Hchain1 k m Hkm) as (o1 & Hm1 & Hch1 & Hmo1).
      assert (m ≠ n) by (intros ->; apply Hn_pre; by eapply list_elem_of_lookup_2).
      destruct (Hothers m o1) as (o' & Ho' & Hmat & Hmw); [done|done|].
      exists o'. split; [done|]. rewrite take_app_le by lia.
      rewrite Hext;
        [|intros x (i & Hi & _)%elem_of_take; by eapply list_elem_of_lookup_2].
      rewrite Hch1, Hmw. split; [done|].
      pose proof (update_matrix_world_keeps _ _ _ _ _ _ _ Hrun m) as Hkm'.
      rewrite Hm1, Ho' in Hkm'. inversion Hkm' as [? ? (?&?&?&?&?&?)|]; subst.
      rewrite Hmat, Hmo1. unfold local_matrix. congruence.
    + assert (k = length (pre' ++ [p])) as ->.
      { apply lookup_lt_Some in Hkm. rewrite length_app in Hkm. cbn in Hkm. lia. }
      rewrite list_lookup_middle in Hkm by done. injection Hkm as <-.
      exists o. split; [done|]. split; [|congruence].
      rewrite take_ge by (rewrite length_app; cbn; lia).
      destruct (Hchain1 (length pre') p) as (op & Hop & Hchp & _).
      { by rewrite list_lookup_middle. }
      rewrite take_ge in Hchp by (rewrite length_app; cbn; lia).
      assert (op = po) as -> by congruence.
      rewrite (chain_snoc h' (pre' ++ [p]) [n] None (matrix_world po)).
      * cbn. rewrite Ho; cbn. f_equal. congruence.
      * by destruct pre'.
      * by rewrite Hext.
Qed.

(** X10: [update_matrix_world(update_children=False, update_parents=True)]
    on an object at the end of a chain of parent references that starts at a
    parentless object returns (given a call budget of the chain's length)
    and leaves every object on the chain with its local matrix composed from
    its transform and its world matrix equal to the product of the local
    matrices from the top of the chain down to it. *)
Theorem update_parents_brings_chain_up_to_date :
  ∀ (path : list nat) self (h : heap) fuel force,
    closed h → lineage h None path → last path = Some self →
    (length path ≤ fuel)%nat →
    ∃ h', update_matrix_world fuel h self force false true = Some h' ∧
      ∀ k m, path !! k = Some m →
        ∃ o0 o, h !! m = Some o0 ∧ h' !! m = Some o ∧
                matrix o = compose (position o0) (rotation o0) (scale o0) ∧
                local_product h' (take (S k) path) = Some (matrix_world o).
Proof.
  intros path self h fuel force Hcl Hlin Hlast Hfuel.
  destruct path as [|x path'] using rev_ind; [done|]. clear IHpath'.
  rewrite last_snoc in Hlast. injection Hlast as ->.
  destruct (update_parents_chain path' self h fuel force Hcl Hlin Hfuel)
    as (h' & Hrun & Hchain).
  exists h'. split; [done|]. intros k m Hkm.
  destruct (Hchain k m Hkm) as (o & Ho & Hch & Hmo).
  pose proof (update_matrix_world_keeps _ _ _ _ _ _ _ Hrun m) as Hk.
  rewrite Ho in Hk. inversion Hk as [o0 ? (?&?&?&?&?&?) Ho0|]; subst.
  exists o0, o. split; [done|]. split; [done|]. split; [|done].
  rewrite Hmo. unfold local_matrix. congruence.
Qed.

(** X21: dirty propagation is lazy.  A call of [update_matrix_world] on
    [self] alone ([update_children=False], no parents) writes [self], sets
    the dirty flag of the direct children and nothing else: a child changes
    in its dirty flag only, and every other object (a grandchild, say) is
    exactly as it was, its dirty flag included. *)
Theorem self_update_is_local :
  ∀ fuel (h : heap) self s force,
    closed h → h !! self = Some s →
    ∃ h', update_matrix_world (S fuel) h self force false false = Some h' ∧
      ∀ m, m ≠ self →
        (m ∈ _children s → h' !! m = set_matrix_world_dirty true <$> (h !! m)) ∧
        (m ∉ _children s → h' !! m = h !! m).
Proof.
  intros fuel h self s force Hcl Hs. destruct (Hcl _ _ Hs) as [Hpar Hkids].
  destruct (update_self_only fuel h self s force Hs Hpar Hkids)
    as (mw & h' & _ & Hrun & Hl). cbn zeta in Hl.
  exists h'. split; [done|]. intros m Hne. rewrite Hl.
  rewrite lookup_insert_ne by done. split; intros Hm.
  - by rewrite decide_True.
  - by rewrite decide_False.
Qed.

End WorldObjectMore.

(** * [look_at] *)

Section LookAtFacts.
Context {L : Linalg} {LA : LinalgLookAt L}.
Local Open Scope list_scope.

(** X11: a call of [look_at] that returns has neither added nor dropped an
    object and has changed, besides matrices and dirty flags, nothing but the
    rotation of [self]: every parent, children list, position, scale, up
    vector, visibility and render order is as before, and so is the rotation
    of every other object. *)
Theorem look_at_changes_rotation_only :
  ∀ fuel (h : heap) self target h',
    look_at fuel h self target = Some h' →
    ∀ m, (is_Some (h' !! m) ↔ is_Some (h !! m)) ∧
         ∀ o o', h !! m = Some o → h' !! m = Some o' →
           same_but_rotation o o' ∧ (m ≠ self → rotation o' = rotation o).
Proof.
  intros fuel h self target h'. unfold look_at.
  destruct (update_matrix_world fuel h self false false true) as [h1|] eqn:Hrun;
    cbn [mbind option_bind]; [|done].
  pose proof (update_matrix_world_keeps _ _ _ _ _ _ _ Hrun) as Hk.
  destruct (h1 !! self) as [s|] eqn:Hs; cbn [mbind option_bind]; [|done].
  rewrite lookup_insert_eq; cbn [mbind option_bind].
  set (R := set_from_rotation_matrix _).
  assert (Hgen : ∀ q, ∀ m,
            (is_Some (<[self := set_rotation q s]> h1 !! m) ↔ is_Some (h !! m)) ∧
            ∀ o o', h !! m = Some o → <[self := set_rotation q s]> h1 !! m = Some o' →
              same_but_rotation o o' ∧ (m ≠ self → rotation o' = rotation o)).
  { intros q m. specialize (Hk m). destruct (decide (m = self)) as [->|Hne].
    - rewrite lookup_insert_eq. rewrite Hs in Hk.
      inversion Hk as [o0 ? (?&?&?&?&?&?&?&?) Ho0|]; subst. split.
      + split; eauto.
      + intros o o' [= <-] [= <-]. split; [by repeat split|done].
    - rewrite lookup_insert_ne by done. split.
      + split; intros [x Hx]; rewrite Hx in Hk; inversion Hk; eauto.
      + intros o o' Ho Ho'. rewrite Ho, Ho' in Hk.
        inversion Hk as [? ? (?&?&?&?&?&?&?&?)|]; subst. split; [by repeat split|done]. }
  change (parent (set_rotation R s)) with (parent s).
  destruct (parent s) as [p|]; [|intros [= <-]; apply Hgen].
  destruct (<[self:=set_rotation R s]> h1 !! p) as [po|]; cbn [mbind option_bind]; [|done].
  rewrite insert_insert_eq. intros [= <-]. apply Hgen.
Qed.

Lemma chain_composed (h h1 : heap) (path : list nat) : ∀ acc,
  (∀ m, m ∈ path → ∃ o0 o, h !! m = Some o0 ∧ h1 !! m = Some o ∧
                           matrix o = local_matrix o0) →
  chain h1 acc path = chain (composed h) acc path.
Proof.
  intros acc Hm. apply chain_ext. intros m Hin.
  destruct (Hm m Hin) as (o0 & o & Ho0 & Ho & Hmat).
  unfold composed. rewrite lookup_fmap, Ho0, Ho. cbn. by rewrite Hmat.
Qed.

(** X12: [look_at] works from the current transforms.  For [self] at the end
    of a chain of parent references [pre ++ [self]] that starts at a
    parentless object, [look_at] returns (given a call budget of the chain's
    length), and the rotation it gives [self] is computed from the world
    position that the chain's positions, rotations and scales give now
    (whatever the cached matrices held), with the rotation part of the
    parent's world matrix, equally fresh, divided out when there is a
    parent. *)
Theorem look_at_uses_current_transforms :
  ∀ (pre : list nat) self (h : heap) fuel target,
    closed h → lineage h None (pre ++ [self]) →
    (length (pre ++ [self]) ≤ fuel)%nat →
    ∃ h' o0 o' W,
      look_at fuel h self target = Some h' ∧
      h !! self = Some o0 ∧ h' !! self = Some o' ∧
      local_product (composed h) (pre ++ [self]) = Some W ∧
      let R := set_from_rotation_matrix
                 (Matrix4_look_at (set_from_matrix_position W) target (up o0)) in
      match last pre with
      | None => rotation o' = R
      | Some _ =>
          ∃ Wp, local_product (composed h) pre = Some Wp ∧
                rotation o'
                = premultiply R (Quaternion_inverse
                                   (set_from_rotation_matrix (extract_rotation Wp)))
      end.
Proof.
  intros pre self h fuel target Hcl Hlin Hfuel.
  destruct (update_parents_chain pre self h fuel false Hcl Hlin Hfuel)
    as (h1 & Hrun & Hchain).
  pose proof (update_matrix_world_keeps _ _ _ _ _ _ _ Hrun) as Hk.
  assert (Hfresh : ∀ m, m ∈ pre ++ [self] →
            ∃ o0 o, h !! m = Some o0 ∧ h1 !! m = Some o ∧ matrix o = local_matrix o0).
  { intros m (k & Hkm)%list_elem_of_lookup_1.
    destruct (Hchain k m Hkm) as (o & Ho & _ & Hmo).
    specialize (Hk m). rewrite Ho in Hk.
    inversion Hk as [o0 ? (?&?&?&?&?&?) Ho0|]; subst.
    exists o0, o. split; [done|]. split; [done|]. rewrite Hmo.
    unfold local_matrix. congruence. }
  destruct (Hchain (length pre) self) as (s & Hs & HW & _).
  { by rewrite list_lookup_middle. }
  rewrite take_ge in HW by (rewrite length_app; cbn; lia).
  unfold local_product in *. rewrite (chain_composed h h1) in HW by done.
  pose proof (Hk self) as Hkself. rewrite Hs in Hkself.
  inversion Hkself as [o0 ? (Hp0 & _ & _ & _ & _ & Hup0 & _) Ho0|]; subst.
  symmetry in Ho0.
  unfold look_at. rewrite Hrun; cbn [mbind option_bind].
  rewrite Hs; cbn [mbind option_bind]. rewrite lookup_insert_eq; cbn [mbind option_bind].
  change (parent (set_rotation ?q s)) with (parent s).
  pose proof (proj1 (lineage_snoc h None pre self) Hlin) as (Hlin_pre & o0' & Ho0' & Hpar).
  assert (o0' = o0) as -> by congruence.
  rewrite Hp0, Hpar. rewrite Hup0.
  destruct pre as [|p pre' _] using rev_ind.
  - cbn. eexists _, o0, _, _. split; [done|]. split; [done|].
    rewrite lookup_insert_eq. split; [done|]. split; [exact HW|]. done.
  - rewrite last_snoc. cbn [from_option].
    pose proof (lineage_NoDup _ _ Hlin) as Hnd.
    apply NoDup_app in Hnd as (_ & Hnin & _).
    assert (p ≠ self).
    { intros ->. apply (Hnin self); [apply elem_of_app; right|]; apply elem_of_cons; auto. }
    rewrite lookup_insert_ne by done.
    destruct (Hchain (length pre') p) as (po & Hpo & HWp & _).
    { rewrite lookup_app_l by (rewrite length_app; cbn; lia).
      by rewrite list_lookup_middle. }
    rewrite take_app_le in HWp by (rewrite length_app; cbn; lia).
    rewrite take_ge in HWp by (rewrite length_app; cbn; lia).
    rewrite (chain_composed h h1) in HWp
      by (intros m Hm; apply Hfresh, elem_of_app; auto).
    rewrite Hpo; cbn [mbind option_bind].
    rewrite ?lookup_insert_eq; cbn [mbind option_bind]. rewrite insert_insert_eq.
    eexists _, o0, _, _. split; [done|]. split; [done|].
    rewrite lookup_insert_eq. split; [done|]. split; [exact HW|].
    cbn zeta. exists (matrix_world po). split; [exact HWp|]. done.
Qed.

End LookAtFacts.

(** * Further properties of the points materials *)

Section PointsMaterialMore.

Lemma py_in_inv (v : pyval) (fields : list string) :
  py_in v fields = true → ∃ s, v = PStr s ∧ s ∈ fields.
Proof.
  destruct v as [| | | |s| |]; cbn; try done.
  intros Hin%bool_decide_eq_true. eauto.
Qed.

Lemma py_eq_str (v : pyval) (s : string) : py_eq v (PStr s) = true ↔ v = PStr s.
Proof.
  destruct v as [|b|n|q|t|vs|i]; cbn; try (split; [done|intros [=]]).
  rewrite String.eqb_eq. split; [by intros ->|by intros [= ->]].
Qed.

Lemma py_in_tuple_interpolation (v : pyval) :
  py_in_tuple v [PStr "nearest"; PStr "linear"] = true
  ↔ v = PStr "nearest" ∨ v = PStr "linear".
Proof.
  unfold py_in_tuple. cbn [existsb]. rewrite orb_false_r, orb_true_iff.
  by rewrite !py_eq_str.
Qed.

(** Unfolds the property accessors and resolves the lookups in the
    attribute namespace. *)
Ltac store_lookups :=
  unfold valid, color_mode, size_space, size_mode, map_, sprite,
    map_interpolation, aa, color_is_transparent, store_set in *;
  cbn [_store uniform_buffer data_color set_data_color update_range
       set_data_size fst snd] in *;
  repeat first [rewrite lookup_insert_eq | rewrite lookup_insert_ne by done].

Lemma sprite_setter_keeps_valid (CM SM CS : list string) (v : pyval) (m : Material) :
  valid CM SM CS m → valid CM SM CS (sprite_setter v m).2.
Proof.
  intros Hv. unfold sprite_setter. destruct v; cbn; try done; store_lookups; done.
Qed.

(** X13: the validated state is an invariant of the setters.  From a
    material whose enum-valued properties are fields of their enums, whose
    [map] is [None] or a texture, whose [map_interpolation] is one of the
    two names, whose [aa] is a bool and whose transparency flag agrees with
    the colour in the buffer, every setter call (whatever the argument,
    whether it returns or raises) leaves such a material. *)
Theorem setters_keep_valid :
  ∀ (ColorMode SizeMode CoordSpace : list string)
    (Color_new : Color.t → Color.t) (f4 : Q → option Q) (m : Material),
    valid ColorMode SizeMode CoordSpace m →
    (∀ v, valid ColorMode SizeMode CoordSpace (color_mode_setter ColorMode v m).2) ∧
    (∀ v, valid ColorMode SizeMode CoordSpace (size_space_setter CoordSpace v m).2) ∧
    (∀ v, valid ColorMode SizeMode CoordSpace (size_mode_setter SizeMode v m).2) ∧
    (∀ c, valid ColorMode SizeMode CoordSpace (color_setter Color_new c m).2) ∧
    (∀ x, valid ColorMode SizeMode CoordSpace (size_setter f4 x m).2) ∧
    (∀ v, valid ColorMode SizeMode CoordSpace (map_setter v m).2) ∧
    (∀ v, valid ColorMode SizeMode CoordSpace (map_interpolation_setter v m).2) ∧
    (∀ v, valid ColorMode SizeMode CoordSpace (aa_setter v m).2) ∧
    (∀ v, valid ColorMode SizeMode CoordSpace (sprite_setter v m).2).
Proof.
  intros CM SM CS Color_new f4 m Hv.
  split_and!; intros v.
  - unfold color_mode_setter.
    destruct (py_in (py_or v (PStr "auto")) CM) eqn:Hin; cbn [negb snd]; [|done].
    apply py_in_inv in Hin as (s & -> & Hs).
    destruct Hv as (_ & ? & ? & ? & ? & ? & ?). store_lookups. by eauto 10.
  - unfold size_space_setter.
    destruct (py_in (py_or v (PStr "screen")) CS) eqn:Hin; cbn [negb snd]; [|done].
    apply py_in_inv in Hin as (s & -> & Hs).
    destruct Hv as (? & _ & ? & ? & ? & ? & ?). store_lookups. by eauto 10.
  - unfold size_mode_setter.
    destruct (py_in (py_or v (PStr "uniform")) SM) eqn:Hin; cbn [negb snd]; [|done].
    apply py_in_inv in Hin as (s & -> & Hs).
    destruct Hv as (? & ? & _ & ? & ? & ? & ?). store_lookups. by eauto 10.
  - unfold color_setter. destruct Hv as (? & ? & ? & ? & ? & ? & _).
    store_lookups. by eauto 10.
  - unfold size_setter. destruct (f4 v); cbn [snd]; [|done].
    destruct Hv as (? & ? & ? & ? & ? & ? & ?).
    store_lookups. by eauto 10.
  - unfold map_setter. destruct v; cbn; try done;
      destruct Hv as (? & ? & ? & _ & ? & ? & ?); store_lookups; by eauto 10.
  - unfold map_interpolation_setter.
    destruct (py_in_tuple v _) eqn:Hin; cbn [snd]; [|done].
    apply py_in_tuple_interpolation in Hin.
    destruct Hv as (? & ? & ? & ? & _ & ? & ?). store_lookups.
    do 4 (split; [done|]). split; [|done]. by destruct Hin as [->| ->]; eauto.
  - unfold aa_setter. destruct Hv as (? & ? & ? & ? & ? & _ & ?).
    store_lookups. by eauto 10.
  - by apply sprite_setter_keeps_valid.
Qed.

(** *** Construction *)

Lemma and_then_returned (f g : Material → outcome * Material) m m' :
  and_then f g m = (Returned, m') →
  ∃ m1, f m = (Returned, m1) ∧ g m1 = (Returned, m').
Proof.
  unfold and_then. destruct (f m) as [[|e] m1]; [eauto|done].
Qed.

(** X14: a points material that [__init__] has returned is in the validated
    state, whatever [Material.__init__] left and whatever the arguments
    were; with a sprite material the [sprite] is moreover [None] or a
    texture. *)
Theorem init_establishes_valid :
  ∀ (ColorMode SizeMode CoordSpace : list string)
    (Color_new : Color.t → Color.t) (f4 : Q → option Q)
    (sprite_ : pyval) (size_ : Q) (size_space_ size_mode_ : pyval) (color_ : Color.t)
    (color_mode_ map map_interpolation_ aa_ : pyval) (m0 m : Material),
    (PointsMaterial_init ColorMode SizeMode CoordSpace Color_new f4
       size_ size_space_ size_mode_ color_ color_mode_ map map_interpolation_ aa_ m0
     = (Returned, m) →
     valid ColorMode SizeMode CoordSpace m) ∧
    (PointsSpriteMaterial_init ColorMode SizeMode CoordSpace Color_new f4
       sprite_ size_ size_space_ size_mode_ color_ color_mode_ map
       map_interpolation_ aa_ m0
     = (Returned, m) →
     valid ColorMode SizeMode CoordSpace m ∧
     (sprite m = Some PNone ∨ ∃ id, sprite m = Some (PTexture id))).
Proof.
  intros CM SM CS Color_new f4 sp sz ss sm c cm mp mi a m0 m.
  assert (Hbase : ∀ m,
    PointsMaterial_init CM SM CS Color_new f4 sz ss sm c cm mp mi a m0 = (Returned, m) →
    valid CM SM CS m).
  { clear m. intros m. unfold PointsMaterial_init, statements. cbn [foldr].
    intros (m1 & H1 & (m2 & H2 & (m3 & H3 & (m4 & H4 & (m5 & H5 & (m6 & H6 &
            (m7 & H7 & (m8 & H8 & H9)%and_then_returned)%and_then_returned
            )%and_then_returned)%and_then_returned)%and_then_returned
            )%and_then_returned)%and_then_returned)%and_then_returned.
    injection H9 as <-.
    unfold size_setter in H1. destruct (f4 sz) as [x|]; [|done].
    cbv zeta in H1. injection H1 as <-.
    unfold size_space_setter in H2. cbv zeta in H2.
    destruct (py_in (py_or ss (PStr "screen")) CS) eqn:Hss; cbn [negb] in H2; [|done].
    injection H2 as <-. apply py_in_inv in Hss as (s2 & Es2 & Hs2).
    unfold size_mode_setter in H3. cbv zeta in H3.
    destruct (py_in (py_or sm (PStr "uniform")) SM) eqn:Hsm; cbn [negb] in H3; [|done].
    injection H3 as <-. apply py_in_inv in Hsm as (s3 & Es3 & Hs3).
    unfold color_setter in H4. cbv zeta in H4. injection H4 as <-.
    unfold color_mode_setter in H5. cbv zeta in H5.
    destruct (py_in (py_or cm (PStr "auto")) CM) eqn:Hcm; cbn [negb] in H5; [|done].
    injection H5 as <-. apply py_in_inv in Hcm as (s5 & Es5 & Hs5).
    unfold map_setter in H6.
    destruct (is_None mp || isinstance_Texture mp) eqn:Hmp; [|done].
    injection H6 as <-.
    unfold map_interpolation_setter in H7.
    destruct (py_in_tuple mi _) eqn:Hmi; [|done].
    injection H7 as <-. apply py_in_tuple_interpolation in Hmi.
    unfold aa_setter in H8. injection H8 as <-.
    rewrite Es2, Es3, Es5. store_lookups. split_and!; eauto.
    - destruct mp; try done; eauto.
    - destruct Hmi as [->| ->]; eauto. }
  split; [apply Hbase|].
  unfold PointsSpriteMaterial_init, statements. cbn [foldr].
  intros (m1 & H1 & (m2 & H2 & H3)%and_then_returned)%and_then_returned.
  injection H3 as <-. apply Hbase in H1.
  pose proof (sprite_setter_keeps_valid CM SM CS sp m1 H1) as Hsprite.
  rewrite H2 in Hsprite. split; [done|].
  unfold sprite_setter in H2. destruct sp; cbn in H2; try done;
    injection H2 as <-; unfold sprite, store_set; cbn; rewrite lookup_insert_eq; eauto.
Qed.

(** X15: for a colour given as RGBA values that [Color] accepts, [__init__]
    returns exactly when the size converts to a 4-byte float and each
    validated argument is acceptable to its setter: [size_space],
    [size_mode] and [color_mode] falsy or a field of their enum, [map] [None]
    or a texture, and [map_interpolation] one of the two names.  [aa] never
    makes it fail; a size too large to convert makes it raise
    [OverflowError] before any other argument is looked at. *)
Theorem init_returns_iff :
  ∀ (ColorMode SizeMode CoordSpace : list string)
    (Color_new : Color.t → Color.t) (f4 : Q → option Q)
    (size_ : Q) (size_space_ size_mode_ : pyval) (color_ : Color.t)
    (color_mode_ map map_interpolation_ aa_ : pyval) (m0 : Material),
    ((PointsMaterial_init ColorMode SizeMode CoordSpace Color_new f4
        size_ size_space_ size_mode_ color_ color_mode_ map map_interpolation_ aa_ m0).1
     = Returned
     ↔ is_Some (f4 size_) ∧
       py_in (py_or size_space_ (PStr "screen")) CoordSpace = true ∧
       py_in (py_or size_mode_ (PStr "uniform")) SizeMode = true ∧
       py_in (py_or color_mode_ (PStr "auto")) ColorMode = true ∧
       (map = PNone ∨ ∃ id, map = PTexture id) ∧
       (map_interpolation_ = PStr "nearest" ∨ map_interpolation_ = PStr "linear")) ∧
    (f4 size_ = None →
     PointsMaterial_init ColorMode SizeMode CoordSpace Color_new f4
       size_ size_space_ size_mode_ color_ color_mode_ map map_interpolation_ aa_ m0
     = (Raised OverflowError, m0)).
Proof.
  intros CM SM CS Color_new f4 sz ss sm c cm mp mi a m0.
  rewrite <- py_in_tuple_interpolation.
  unfold PointsMaterial_init, statements. cbn [foldr].
  unfold and_then at 1. unfold size_setter.
  destruct (f4 sz) as [x|]; cbn [fst];
    [|split; [split; [done|by intros [[? [=]] _]]|done]].
  split; [|done]. cbv zeta.
  unfold and_then at 1. unfold size_space_setter at 1. cbv zeta.
  destruct (py_in (py_or ss (PStr "screen")) CS); cbn [negb fst];
    [|split; [done|by intros (_ & ? & _)]].
  unfold and_then at 1. unfold size_mode_setter at 1. cbv zeta.
  destruct (py_in (py_or sm (PStr "uniform")) SM); cbn [negb fst];
    [|split; [done|by intros (_ & _ & ? & _)]].
  unfold and_then at 1. unfold color_setter at 1. cbv zeta.
  unfold and_then at 1. unfold color_mode_setter at 1. cbv zeta.
  destruct (py_in (py_or cm (PStr "auto")) CM); cbn [negb fst];
    [|split; [done|by intros (_ & _ & _ & ? & _)]].
  unfold and_then at 1. unfold map_setter at 1.
  assert (Hmp : is_None mp || isinstance_Texture mp = true
                ↔ mp = PNone ∨ ∃ id, mp = PTexture id).
  { destruct mp; cbn; naive_solver. }
  destruct (is_None mp || isinstance_Texture mp); cbn [fst];
    [|split; [done|intros (_ & _ & _ & _ & Hm & _); by apply Hmp in Hm]].
  unfold and_then at 1. unfold map_interpolation_setter at 1.
  destruct (py_in_tuple mi _); cbn [fst];
    [|split; [done|by intros (_ & _ & _ & _ & _ & ?)]].
  unfold and_then, aa_setter. cbn. split; [|done]. intros _.
  split; [by eexists|]. do 3 (split; [done|]). split; [by apply Hmp|done].
Qed.

(** *** The other validated setters *)

(** X16: assigning [map_interpolation] succeeds exactly for the strings
    ["nearest"] and ["linear"], which are then read back; any other value
    fails the assertion and leaves the material as it was. *)
Theorem map_interpolation_roundtrip :
  ∀ (v : pyval) (m : Material),
    ((map_interpolation_setter v m).1 = Returned
     ↔ v = PStr "nearest" ∨ v = PStr "linear") ∧
    ((v = PStr "nearest" ∨ v = PStr "linear") →
     map_interpolation (map_interpolation_setter v m).2 = Some v) ∧
    (¬ (v = PStr "nearest" ∨ v = PStr "linear") →
     map_interpolation_setter v m = (Raised AssertionError, m)).
Proof.
  intros v m. rewrite <- py_in_tuple_interpolation.
  unfold map_interpolation_setter, map_interpolation.
  destruct (py_in_tuple v _); cbn; rewrite ?lookup_insert_eq; naive_solver.
Qed.

(** X17: [size_space] and [size_mode] behave as [color_mode] does.  For
    enums whose field names are non-empty, assigning a field succeeds and is
    read back; assigning a truthy value that is not a field raises the
    [ValueError] naming the property, the enum and the value, and leaves the
    material as it was. *)
Theorem size_enums_roundtrip :
  ∀ (SizeMode CoordSpace : list string) (v : pyval) (m : Material),
    "" ∉ SizeMode → "" ∉ CoordSpace →
    (py_in v CoordSpace = true →
       (size_space_setter CoordSpace v m).1 = Returned ∧
       size_space (size_space_setter CoordSpace v m).2 = Some v) ∧
    (py_in v CoordSpace = false → truthy v = true →
       size_space_setter CoordSpace v m
       = (Raised (ValueError "PointsMaterial.size_space" CoordSpace v), m)) ∧
    (py_in v SizeMode = true →
       (size_mode_setter SizeMode v m).1 = Returned ∧
       size_mode (size_mode_setter SizeMode v m).2 = Some v) ∧
    (py_in v SizeMode = false → truthy v = true →
       size_mode_setter SizeMode v m
       = (Raised (ValueError "PointsMaterial.size_mode" SizeMode v), m)).
Proof.
  intros SM CS v m Hsm Hcs. unfold size_space_setter, size_mode_setter.
  split_and!.
  - intros Hin. rewrite (py_or_truthy v) by by apply (py_in_truthy v CS).
    rewrite Hin. cbn. split; [done|]. apply lookup_insert_eq.
  - intros Hout Ht. rewrite (py_or_truthy v) by done. by rewrite Hout.
  - intros Hin. rewrite (py_or_truthy v) by by apply (py_in_truthy v SM).
    rewrite Hin. cbn. split; [done|]. apply lookup_insert_eq.
  - intros Hout Ht. rewrite (py_or_truthy v) by done. by rewrite Hout.
Qed.

(** X18: [vertex_colors] follows [color_mode].  Right after an assignment to
    [color_mode] that returned, [vertex_colors] is [True] exactly when the
    value now stored is the string [ColorMode.vertex]. *)
Theorem vertex_colors_follows_color_mode :
  ∀ (ColorMode : list string) (ColorMode_vertex : string) (v : pyval) (m m' : Material),
    color_mode_setter ColorMode v m = (Returned, m') →
    ∃ s, color_mode m' = Some (PStr s) ∧ s ∈ ColorMode ∧
         vertex_colors ColorMode_vertex m'
         = Some (PBool (bool_decide (s = ColorMode_vertex))).
Proof.
  intros CM vx v m m'. unfold color_mode_setter. cbv zeta.
  destruct (py_in (py_or v (PStr "auto")) CM) eqn:Hin; cbn [negb]; [|done].
  intros [= <-]. apply py_in_inv in Hin as (s & -> & Hs).
  exists s. unfold vertex_colors, color_mode, store_set. cbn.
  rewrite lookup_insert_eq. cbn. do 2 (split; [done|]). do 2 f_equal.
  destruct (String.eqb_spec s vx);
    [by rewrite bool_decide_eq_true_2|by rewrite bool_decide_eq_false_2].
Qed.

End PointsMaterialMore.

(** * Pick values *)

Section PickValues.
Local Open Scope Z_scope.

Lemma unpack_field (v r bits : Z) :
  0 ≤ bits → 0 ≤ v < 2 ^ bits →
  Z.land (Z.lor v (Z.shiftl r bits)) (2 ^ bits - 1) = v ∧
  Z.shiftr (Z.lor v (Z.shiftl r bits)) bits = r.
Proof.
  intros Hb Hv. split.
  - replace (2 ^ bits - 1) with (Z.ones bits) by (rewrite Z.ones_equiv; lia).
    rewrite Z.land_lor_distr_l, !Z.land_ones by done.
    rewrite Z.shiftl_mul_pow2 by done. rewrite Z.mod_mul by lia.
    rewrite Z.lor_0_r. by apply Z.mod_small.
  - rewrite Z.shiftr_lor, Z.shiftr_shiftl_l by done. rewrite Z.sub_diag, Z.shiftl_0_r.
    rewrite Z.shiftr_div_pow2 by done. rewrite Z.div_small by done. apply Z.lor_0_l.
Qed.

Lemma pick_info_fields (pick_value : Z) :
  _wgpu_get_pick_info pick_value
  = Some (<["vertex_index" := PInt (Z.land (Z.shiftr pick_value 20) (2 ^ 26 - 1))]>
          (<["point_coord" :=
               PTuple [PFloat (inject_Z
                         (Z.land (Z.shiftr (Z.shiftr pick_value 20) 26) (2 ^ 9 - 1)
                          - 256));
                       PFloat (inject_Z
                         (Z.land (Z.shiftr (Z.shiftr (Z.shiftr pick_value 20) 26) 9)
                            (2 ^ 9 - 1) - 256))]]> ∅)).
Proof.
  unfold _wgpu_get_pick_info. cbn [unpack_bitfield].
  repeat first [rewrite lookup_insert_eq | rewrite lookup_insert_ne by done].
  reflexivity.
Qed.

(** X19: decoding inverts the encoding.  For an object id below 2^20, an
    index below 2^26 and coordinate fields below 2^9, packed in that order
    from the least significant bit, [_wgpu_get_pick_info] returns the index
    as [vertex_index] and the two coordinate fields less 256 as
    [point_coord]; the object id has no influence. *)
Theorem pick_info_roundtrip :
  ∀ (wobject_id index x y : Z),
    0 ≤ wobject_id < 2 ^ 20 → 0 ≤ index < 2 ^ 26 →
    0 ≤ x < 2 ^ 9 → 0 ≤ y < 2 ^ 9 →
    _wgpu_get_pick_info
      (pack_bitfield [(wobject_id, 20); (index, 26); (x, 9); (y, 9)])
    = Some (<["vertex_index" := PInt index]>
            (<["point_coord" := PTuple [PFloat (inject_Z (x - 256));
                                        PFloat (inject_Z (y - 256))]]> ∅)).
Proof.
  intros id index x y Hid Hindex Hx Hy. rewrite pick_info_fields.
  cbn [pack_bitfield].
  destruct (unpack_field id (Z.lor index (Z.shiftl (Z.lor x (Z.shiftl
              (Z.lor y (Z.shiftl 0 9)) 9)) 26)) 20) as [_ ->]; [lia|done|].
  destruct (unpack_field index (Z.lor x (Z.shiftl (Z.lor y (Z.shiftl 0 9)) 9)) 26)
    as [-> ->]; [lia|done|].
  destruct (unpack_field x (Z.lor y (Z.shiftl 0 9)) 9) as [-> ->]; [lia|done|].
  destruct (unpack_field y 0 9) as [-> _]; [lia|done|]. done.
Qed.

(** X20: for every pick value whatever, [_wgpu_get_pick_info] returns a
    dictionary with exactly the entries [vertex_index] and [point_coord],
    the index within [0, 2^26) and both coordinates within [-256, 255]; no
    key is missed and nothing is raised. *)
Theorem pick_info_total_and_bounded :
  ∀ (pick_value : Z),
    ∃ index x y,
      _wgpu_get_pick_info pick_value
      = Some (<["vertex_index" := PInt index]>
              (<["point_coord" := PTuple [PFloat (inject_Z x);
                                          PFloat (inject_Z y)]]> ∅)) ∧
      0 ≤ index < 2 ^ 26 ∧ -256 ≤ x ≤ 255 ∧ -256 ≤ y ≤ 255.
Proof.
  intros pv. rewrite pick_info_fields. eexists _, _, _. split; [done|].
  assert (Hmask : ∀ a n, 0 ≤ n → 0 ≤ Z.land a (2 ^ n - 1) < 2 ^ n).
  { intros a n Hn.
    replace (2 ^ n - 1) with (Z.ones n) by (rewrite Z.ones_equiv; lia).
    rewrite Z.land_ones by done. apply Z.mod_pos_bound. lia. }
  pose proof (Hmask (Z.shiftr pv 20) 26 ltac:(lia)).
  pose proof (Hmask (Z.shiftr (Z.shiftr pv 20) 26) 9 ltac:(lia)).
  pose proof (Hmask (Z.shiftr (Z.shiftr (Z.shiftr pv 20) 26) 9) 9 ltac:(lia)).
  change (2 ^ 9) with 512 in *. lia.
Qed.

End PickValues.

(** * The further statements at concrete inputs *)

Section MoreWitnesses.
Import ZLinalg Demo DemoMore.
Local Open Scope list_scope.

Ltac present := apply (bool_decide_unpack (is_Some _)); vm_compute; exact I.
Ltac decided P := apply (bool_decide_unpack P); vm_compute; exact I.

Lemma selfloop_endless :
  ∀ n, n = 0%nat →
    ∃ s c, default ∅ selfloop !! n = Some s ∧ c ∈ _children s ∧ c = 0%nat.
Proof.
  intros n ->. eexists _, 0%nat. split; [reflexivity|]. split; [|done].
  decided (0%nat ∈ [0%nat]).
Qed.

Lemma update_matrix_world_writes_matrices_only_witness :
  is_Some (default ∅ (update_matrix_world 3 (default ∅ scene) 0%nat
                        true true false) !! 3%nat)
  ↔ is_Some (default ∅ scene !! 3%nat).
Proof.
  apply (update_matrix_world_writes_matrices_only 3 (default ∅ scene) 0%nat
           true true false).
  vm_compute. reflexivity.
Defined.

Lemma traverse_preorder_witness :
  (snd <$> traverse 3 note (default ∅ scene, []) 0%nat) = Some [0; 1; 3; 2]%nat.
Proof.
  rewrite (traverse_preorder note scene_tree (default ∅ scene, []) None 3).
  - reflexivity.
  - intros n st par t Ht. exact Ht.
  - repeat lazymatch goal with
           | |- hierarchy _ _ _ =>
               eapply hierarchy_node; [reflexivity|reflexivity|reflexivity|]
           | |- Forall _ _ => constructor
           end.
  - simpl. lia.
Defined.

Lemma add_attaches_witness :
  ∃ h' o', add (default ∅ scene) 2%nat 1%nat = Some h' ∧
           h' !! 1%nat = Some o' ∧ parent o' = Some 2%nat.
Proof.
  destruct (add_attaches (default ∅ scene) 2 1 (wired_closed _ scene_wired))
    as (h' & o' & s' & Hadd & Ho' & Hp & _); [present|present|].
  by exists h', o'.
Defined.

Lemma add_children_order_witness :
  ∃ h' s', add (default ∅ scene) 0%nat 1%nat = Some h' ∧
           h' !! 0%nat = Some s' ∧ _children s' = [2; 1]%nat.
Proof.
  destruct (add_children_order (default ∅ scene) 0 1 scene_wired)
    as (h' & Hadd & Hkids); [present|present|].
  destruct (Hkids 0%nat _ eq_refl) as (s' & Hs' & Hcs).
  by exists h', s'.
Defined.

Lemma remove_detaches_witness :
  ∃ h' s', remove (default ∅ scene) 0%nat 1%nat = Some h' ∧ wired h' ∧
           h' !! 0%nat = Some s' ∧ _children s' = [2%nat].
Proof.
  destruct (remove_detaches (default ∅ scene) 0 1 _ scene_wired eq_refl)
    as (h' & o' & s' & Hrm & Hw & _ & _ & Hs' & Hcs & _).
  - decided (1%nat ∈ [1; 2]%nat).
  - by exists h', s'.
Defined.

Lemma add_remove_roundtrip_witness :
  ∃ h1 o, three !! 0%nat = Some o ∧ add three 1%nat 0%nat = Some h1 ∧
          remove h1 1%nat 0%nat = Some (<[0%nat := set_matrix_world_dirty true o]> three).
Proof.
  destruct (add_remove_roundtrip three 1 0 _ three_wired ltac:(present) eq_refl eq_refl)
    as (h1 & Hadd & Hrm).
  eexists h1, _. split; [reflexivity|]. by split.
Defined.

Lemma update_children_endless_on_cycle_witness :
  update_matrix_world 1000 (default ∅ selfloop) 0%nat false true false = None.
Proof.
  apply (update_children_endless_on_cycle (λ n, n = 0%nat) (default ∅ selfloop) 0%nat
           1000 false false selfloop_endless eq_refl).
Defined.

Lemma traverse_endless_on_cycle_witness :
  traverse 1000 note (default ∅ selfloop, []) 0%nat = None.
Proof.
  apply (traverse_endless_on_cycle note (λ n, n = 0%nat) (default ∅ selfloop, [])
           0%nat 1000).
  - intros n st. apply keeps_static_refl.
  - exact selfloop_endless.
  - reflexivity.
Defined.

Lemma full_update_idempotent_witness :
  ∃ h', update_matrix_world 3 (default ∅ scene) 0%nat true true false = Some h' ∧
        update_matrix_world 3 h' 0%nat false true false = Some h'.
Proof.
  apply (full_update_idempotent (default ∅ scene) scene_tree 3 true false).
  - repeat lazymatch goal with
           | |- hierarchy _ _ _ =>
               eapply hierarchy_node; [reflexivity|reflexivity|reflexivity|]
           | |- Forall _ _ => constructor
           end.
  - decided (NoDup (nodes scene_tree)).
  - simpl. lia.
Defined.

Lemma scene_lineage : lineage (default ∅ scene) None [0; 1; 3]%nat.
Proof. cbn [lineage]. split_and!; try done; eexists; split; reflexivity. Qed.

Lemma update_parents_brings_chain_up_to_date_witness :
  ∃ h' o, update_matrix_world 3 (default ∅ scene) 3%nat false false true = Some h' ∧
          h' !! 3%nat = Some o ∧
          local_product h' [0; 1; 3]%nat = Some (matrix_world o).
Proof.
  destruct (update_parents_brings_chain_up_to_date [0; 1; 3]%nat 3%nat
              (default ∅ scene) 3 false (wired_closed _ scene_wired) scene_lineage
              eq_refl ltac:(simpl; lia))
    as (h' & Hrun & Hchain).
  destruct (Hchain 2%nat 3%nat eq_refl) as (o0 & o & _ & Ho & _ & Hprod).
  by exists h', o.
Defined.

Lemma look_at_changes_rotation_only_witness :
  is_Some (default ∅ (look_at 3 (default ∅ scene) 3%nat (5, 5, 5)) !! 1%nat)
  ↔ is_Some (default ∅ scene !! 1%nat).
Proof.
  apply (look_at_changes_rotation_only 3 (default ∅ scene) 3%nat (5, 5, 5)).
  vm_compute. reflexivity.
Defined.

Lemma look_at_uses_current_transforms_witness :
  ∃ h' W, look_at 3 (default ∅ scene) 3%nat (5, 5, 5) = Some h' ∧
          local_product (composed (default ∅ scene)) [0; 1; 3]%nat = Some W.
Proof.
  destruct (look_at_uses_current_transforms [0; 1]%nat 3%nat (default ∅ scene) 3
              (5, 5, 5) (wired_closed _ scene_wired) scene_lineage
              ltac:(simpl; lia))
    as (h' & o0 & o' & W & Hrun & _ & _ & HW & _).
  by exists h', W.
Defined.

Lemma material_valid : valid ColorMode SizeMode CoordSpace material.
Proof.
  unfold valid. split_and!.
  - exists "vertex". split; [reflexivity|]. decided ("vertex" ∈ ColorMode).
  - exists "screen". split; [reflexivity|]. decided ("screen" ∈ CoordSpace).
  - exists "uniform". split; [reflexivity|]. decided ("uniform" ∈ SizeMode).
  - left. reflexivity.
  - right. reflexivity.
  - exists true. reflexivity.
  - reflexivity.
Qed.

Lemma setters_keep_valid_witness :
  valid ColorMode SizeMode CoordSpace
    (color_mode_setter ColorMode (PStr "face") material).2 ∧
  valid ColorMode SizeMode CoordSpace
    (color_setter id (Color.mk 1 0 0 (1 # 2)) material).2.
Proof.
  destruct (setters_keep_valid ColorMode SizeMode CoordSpace id Some material
              material_valid) as (Hcm & _ & _ & Hc & _).
  split; [apply Hcm|apply Hc].
Defined.

Lemma size_enums_roundtrip_witness :
  size_space (size_space_setter CoordSpace (PStr "world") material).2
  = Some (PStr "world") ∧
  size_mode_setter SizeMode (PStr "huge") material
  = (Raised (ValueError "PointsMaterial.size_mode" SizeMode (PStr "huge")), material).
Proof.
  assert (Hsm : "" ∉ SizeMode) by decided ("" ∉ SizeMode).
  assert (Hcs : "" ∉ CoordSpace) by decided ("" ∉ CoordSpace).
  split.
  - apply (size_enums_roundtrip SizeMode CoordSpace (PStr "world") material Hsm Hcs).
    reflexivity.
  - apply (size_enums_roundtrip SizeMode CoordSpace (PStr "huge") material Hsm Hcs);
      reflexivity.
Defined.

Lemma vertex_colors_follows_color_mode_witness :
  vertex_colors "vertex" (color_mode_setter ColorMode (PStr "face") material).2
  = Some (PBool false).
Proof.
  destruct (vertex_colors_follows_color_mode ColorMode "vertex" (PStr "face") material
              (color_mode_setter ColorMode (PStr "face") material).2 eq_refl)
    as (s & Hs & _ & ->).
  vm_compute in Hs. injection Hs as <-. reflexivity.
Defined.

Lemma pick_info_roundtrip_witness :
  _wgpu_get_pick_info (pack_bitfield [(7, 20); (123456, 26); (300, 9); (200, 9)])
  = Some (<["vertex_index" := PInt 123456]>
          (<["point_coord" := PTuple [PFloat (inject_Z (300 - 256));
                                      PFloat (inject_Z (200 - 256))]]> ∅)).
Proof.
  apply (pick_info_roundtrip 7 123456 300 200);
    (split; [by apply Z.leb_le|by apply Z.ltb_lt]).
Defined.

Lemma self_update_is_local_witness :
  ∃ h', update_matrix_world 1 (default ∅ scene) 0%nat false false false = Some h' ∧
        h' !! 3%nat = default ∅ scene !! 3%nat.
Proof.
  destruct (self_update_is_local 0 (default ∅ scene) 0%nat _ false
              (wired_closed _ scene_wired) eq_refl) as (h' & Hrun & Hlocal).
  exists h'. split; [exact Hrun|].
  apply (Hlocal 3%nat); [done|]. decided (3%nat ∉ [1; 2]%nat).
Defined.

End MoreWitnesses.
